(** * The yeoman environment: alias resolution, composition, run loop, commit

    A shallow embedding of [src/environment-base.ts] (the [EnvironmentBase]
    class and the [Environment] class that extends it), with the properties
    of the orchestration engine stated and proved over it. *)

From Stdlib Require Import Ascii.
From stdpp Require Import base option list strings gmap.

Set Warnings "-register-all".

(** ** JavaScript values, as far as the environment looks at them *)

Module JS.

(** Errors thrown or passed to [reject]/[emit('error', _)]. *)
Inductive Error :=
| TypeError (msg : string)
| SyntaxError (msg : string)
| PlainError (msg : string).

#[global] Instance Error_eq_dec : EqDecision Error.
Proof. solve_decision. Defined.

(** The values that flow through promises and guards.  [VPromise] is a
    promise object and [VObject n] any other object, by identity. *)
Inductive Value :=
| VUndefined
| VBool (b : bool)
| VString (s : string)
| VObject (id : nat)
| VError (e : Error)
| VPromise.

#[global] Instance Value_eq_dec : EqDecision Value.
Proof. solve_decision. Defined.

(** [ToBoolean]: [undefined], [false] and the empty string are falsy;
    every object, a promise included, is truthy. *)
Definition truthy (v : Value) : bool :=
  match v with
  | VUndefined => false
  | VBool b => b
  | VString s => negb (String.eqb s "")
  | VObject _ | VError _ | VPromise => true
  end.

End JS.

(** ** Regular expressions

    The fragment of JavaScript patterns the alias rules of the environment
    are written in: literal characters, character classes, [.], the anchors
    [^] and [$] (no [m] flag), sequence, alternation, the greedy quantifiers
    [*] and [+], and capturing groups.  No flags: [test] and [replace] act
    on the first match and keep no [lastIndex]. *)

Module RegExp.

Inductive t :=
| Empty
| Char (c : ascii)
| OneOf (cs : list ascii)        (* [abc]  *)
| NoneOf (cs : list ascii)       (* [^abc] *)
| AnyChar                        (* .      *)
| Bol                            (* ^      *)
| Eol                            (* $      *)
| Seq (r1 r2 : t)
| Alt (r1 r2 : t)
| Star (r : t)
| Plus (r : t)
| Group (r : t).                 (* ( r )  *)

(** Number of capturing groups: group [i] is the one opened by the [i]-th
    parenthesis, counting from 1. *)
Fixpoint ngroups (r : t) : nat :=
  match r with
  | Seq r1 r2 | Alt r1 r2 => ngroups r1 + ngroups r2
  | Star r | Plus r => ngroups r
  | Group r => S (ngroups r)
  | _ => 0
  end.

(** Captures: the latest binding of a group comes first. *)
Definition Captures := list (nat * string).

Fixpoint capture (i : nat) (caps : Captures) : option string :=
  match caps with
  | [] => None
  | (j, s) :: caps => if Nat.eqb i j then Some s else capture i caps
  end.

(** Entering an iteration of a quantifier forgets the groups inside it. *)
Definition clear_captures (lo n : nat) (caps : Captures) : Captures :=
  List.filter (fun c => negb (Nat.leb lo (fst c) && Nat.ltb (fst c) (lo + n))) caps.

Fixpoint mem_ascii (c : ascii) (cs : list ascii) : bool :=
  match cs with
  | [] => false
  | d :: cs => Ascii.eqb c d || mem_ascii c cs
  end.

Definition line_terminator (c : ascii) : bool :=
  Ascii.eqb c "010" || Ascii.eqb c "013".

(** The first [n] characters of [s]. *)
Fixpoint take_string (n : nat) (s : string) : string :=
  match n, s with
  | S n, String c s => String c (take_string n s)
  | _, _ => EmptyString
  end.

Definition one_char (p : ascii -> bool) (s : string)
    (k : bool -> string -> option (string * Captures)) : option (string * Captures) :=
  match s with
  | String c s' => if p c then k false s' else None
  | EmptyString => None
  end.

Definition Result : Type := option (string * Captures).

Definition Continuation : Type := bool -> string -> Captures -> Result.

(** The iterations of a greedy quantifier.  [step] matches the quantified
    pattern once; an iteration has to consume input, so the length of the
    input bounds their number. *)
Fixpoint star_loop (step : bool -> string -> Captures -> Continuation -> Result)
    (clear : Captures -> Captures) (k : Continuation)
    (fuel : nat) (bol : bool) (s : string) (caps : Captures) : Result :=
  match fuel with
  | 0 => k bol s caps
  | S fuel =>
      match step bol s (clear caps)
              (fun b s' caps' =>
                 if Nat.ltb (String.length s') (String.length s)
                 then star_loop step clear k fuel b s' caps' else None) with
      | Some m => Some m
      | None => k bol s caps
      end
  end.

(** Backtracking matcher in continuation-passing style.  [gi] is the
    number of the first group of [r], [bol] tells whether the position is
    the start of the input, [s] is the input left.  The continuation gets
    the position after the match of [r]. *)
Fixpoint run (r : t) (gi : nat) (bol : bool) (s : string) (caps : Captures)
    (k : Continuation) {struct r} : Result :=
  match r with
  | Empty => k bol s caps
  | Char c => one_char (Ascii.eqb c) s (fun b s' => k b s' caps)
  | OneOf cs => one_char (fun c => mem_ascii c cs) s (fun b s' => k b s' caps)
  | NoneOf cs => one_char (fun c => negb (mem_ascii c cs)) s (fun b s' => k b s' caps)
  | AnyChar => one_char (fun c => negb (line_terminator c)) s (fun b s' => k b s' caps)
  | Bol => if bol then k bol s caps else None
  | Eol => match s with EmptyString => k bol s caps | _ => None end
  | Seq r1 r2 =>
      run r1 gi bol s caps (fun b s' caps' => run r2 (gi + ngroups r1) b s' caps' k)
  | Alt r1 r2 =>
      match run r1 gi bol s caps k with
      | Some m => Some m
      | None => run r2 (gi + ngroups r1) bol s caps k
      end
  | Star r1 =>
      star_loop (run r1 gi) (clear_captures gi (ngroups r1)) k (String.length s) bol s caps
  | Plus r1 =>
      run r1 gi bol s caps (fun b s' caps' =>
        star_loop (run r1 gi) (clear_captures gi (ngroups r1)) k (String.length s') b s' caps')
  | Group r1 =>
      run r1 (S gi) bol s caps (fun b s' caps' =>
        k b s' ((gi, take_string (String.length s - String.length s') s) :: caps'))
  end.

(** A match: what precedes it, the matched text, what follows, the groups. *)
Record Match := { m_before : string; m_text : string; m_after : string; m_caps : Captures }.

Definition match_at (r : t) (bol : bool) (s : string) : Result :=
  run r 1 bol s [] (fun _ s' caps => Some (s', caps)).

(** [RegExp.prototype.exec]: the leftmost position a match starts at. *)
Fixpoint search (r : t) (bol : bool) (before : string) (s : string) : option Match :=
  match match_at r bol s with
  | Some (rest, caps) =>
      Some {| m_before := before;
              m_text := take_string (String.length s - String.length rest) s;
              m_after := rest; m_caps := caps |}
  | None =>
      match s with
      | EmptyString => None
      | String c s' => search r false (before +:+ String c EmptyString) s'
      end
  end.

Definition exec (r : t) (s : string) : option Match := search r true "" s.

(** [regexp.test(s)] *)
Definition test (r : t) (s : string) : bool := bool_decide (is_Some (exec r s)).

Definition digit (c : ascii) : option nat :=
  let n := nat_of_ascii c in
  if Nat.leb 48 n && Nat.leb n 57 then Some (n - 48) else None.

Definition group_text (i : nat) (m : Match) : string :=
  default "" (capture i (m_caps m)).

(** [GetSubstitution]: [$$], [$&], [$n] and [$nn]; a [$] that starts none
    of them stands for itself. *)
Fixpoint expand (groups : nat) (m : Match) (tmpl : string) : string :=
  match tmpl with
  | EmptyString => EmptyString
  | String "$" (String "$" rest) => String "$" (expand groups m rest)
  | String "$" (String "&" rest) => m_text m +:+ expand groups m rest
  | String "$" (String d1 rest as tl) =>
      match digit d1 with
      | Some n1 =>
          match rest with
          | String d2 rest2 =>
              match digit d2 with
              | Some n2 =>
                  let nn := 10 * n1 + n2 in
                  if Nat.leb 1 nn && Nat.leb nn groups
                  then group_text nn m +:+ expand groups m rest2
                  else if Nat.leb 1 n1 && Nat.leb n1 groups
                  then group_text n1 m +:+ expand groups m rest
                  else String "$" (String d1 (expand groups m rest))
              | None =>
                  if Nat.leb 1 n1 && Nat.leb n1 groups
                  then group_text n1 m +:+ expand groups m rest
                  else String "$" (String d1 (expand groups m rest))
              end
          | EmptyString =>
              if Nat.leb 1 n1 && Nat.leb n1 groups
              then group_text n1 m
              else String "$" (String d1 EmptyString)
          end
      | None => String "$" (expand groups m tl)
      end
  | String c rest => String c (expand groups m rest)
  end.

(** [s.replace(regexp, template)] with a pattern that has no [g] flag:
    the first match is replaced, the rest of [s] is kept. *)
Definition replace (s : string) (r : t) (tmpl : string) : string :=
  match exec r s with
  | None => s
  | Some m => m_before m +:+ expand (ngroups r) m tmpl +:+ m_after m
  end.

End RegExp.

(** ** Alias rules ([EnvironmentBase.alias])

    [aliases: Array<{ match: RegExp; value: string }>], in insertion order. *)

Module Alias.

Record AliasRule := { match_ : RegExp.t; value : string }.

(** What a caller can pass as first argument.  A [YeomanNamespace] object
    is kept by the text its string conversion gives. *)
Inductive Matcher :=
| MUndefined
| MString (s : string)
| MRegExp (r : RegExp.t)
| MNamespace (text : string).

Definition truthy_matcher (m : Matcher) : bool :=
  match m with
  | MUndefined => false
  | MString s => negb (String.eqb s "")
  | MRegExp _ | MNamespace _ => true
  end.

(** [value?: string] *)
Definition truthy_value (v : option string) : bool :=
  match v with
  | Some s => negb (String.eqb s "")
  | None => false
  end.

Definition is_string (m : Matcher) : bool :=
  match m with MString _ => true | _ => false end.

(** The template literal [`^${match}$`]. *)
Definition source_of (m : Matcher) : string :=
  "^" +:+ match m with
          | MUndefined => "undefined"
          | MString s | MNamespace s => s
          | MRegExp _ => ""
          end +:+ "$".

Inductive Outcome :=
| ReturnedThis (aliases : list AliasRule)   (* setter: [return this] *)
| Returned (resolved : string)              (* getter *)
| Threw (e : JS.Error).

(** The body of the [reduce] callback. *)
Definition apply_rule (resolved : string) (alias : AliasRule) : string :=
  if negb (RegExp.test (match_ alias) resolved) then resolved
  else RegExp.replace resolved (match_ alias) (value alias).

Section WithRegExpConstructor.

(** [new RegExp(source)]: the compiled pattern, or the [SyntaxError]. *)
Variable new_RegExp : string -> JS.Error + RegExp.t.

Definition alias (aliases : list AliasRule) (m : Matcher) (v : option string)
    : Outcome :=
  if truthy_matcher m && truthy_value v then
    match m with
    | MRegExp r =>
        ReturnedThis (aliases ++ [{| match_ := r; value := default "" v |}])
    | _ =>
        match new_RegExp (source_of m) with
        | inl e => Threw e
        | inr r => ReturnedThis (aliases ++ [{| match_ := r; value := default "" v |}])
        end
    end
  else
    match m with
    | MString s => Returned (fold_left apply_rule (rev aliases) s)
    | _ => Threw (JS.TypeError "string is required")
    end.

End WithRegExpConstructor.

(** A [RegExp] constructor that accepts no source, for closed examples
    that register no rule from a string. *)
Definition no_RegExp (source : string) : JS.Error + RegExp.t :=
  inl (JS.SyntaxError ("Invalid regular expression: /" +:+ source +:+ "/")).

(** [/^([^:]+)$/] and ['$1:app'], registered by the constructor. *)
Definition default_match : RegExp.t :=
  RegExp.Seq RegExp.Bol
    (RegExp.Seq (RegExp.Group (RegExp.Plus (RegExp.NoneOf [":"%char]))) RegExp.Eol).

Definition default_alias : AliasRule :=
  {| match_ := default_match; value := "$1:app" |}.

(** [aliases] once the constructor has run. *)
Definition initial_aliases : list AliasRule := [default_alias].

(** The rules in the order the specification gives them: the rule added
    last is applied to the identifier, its result goes to the rule added
    before it, and so on down to the rule added first. *)
Fixpoint resolve_newest_first (rules : list AliasRule) (s : string) : string :=
  match rules with
  | [] => s
  | first :: added_later => apply_rule (resolve_newest_first added_later s) first
  end.

Fixpoint no_colon (s : string) : bool :=
  match s with
  | EmptyString => true
  | String c s => negb (Ascii.eqb c ":") && no_colon s
  end.

End Alias.

(** ** Event emitters ([node:events])

    A listener table in registration order.  [emit] calls the listeners of
    the event in that order; a [once] listener leaves the table just before
    it is called. *)

Module Emitter.

Section Handlers.
Context {H : Type} `{EqDecision H}.

Record Listener := { l_event : string; l_once : bool; l_handler : H }.

#[global] Instance Listener_eq_dec : EqDecision Listener.
Proof. solve_decision. Defined.

Definition on (event : string) (h : H) (ls : list Listener) : list Listener :=
  ls ++ [{| l_event := event; l_once := false; l_handler := h |}].

Definition once (event : string) (h : H) (ls : list Listener) : list Listener :=
  ls ++ [{| l_event := event; l_once := true; l_handler := h |}].

(** The copy of the listener array [emit] iterates over. *)
Definition listeners (event : string) (ls : list Listener) : list Listener :=
  filter (fun l => l_event l = event) ls.

Fixpoint remove_first (l : Listener) (ls : list Listener) : list Listener :=
  match ls with
  | [] => []
  | l' :: ls => if decide (l = l') then ls else l' :: remove_first l ls
  end.

(** What calling [l] does to the table before its handler runs. *)
Definition before_call (l : Listener) (ls : list Listener) : list Listener :=
  if l_once l then remove_first l ls else ls.


End Handlers.

Arguments Listener : clear implicits.

End Emitter.

(** ** The state of an environment *)

Module Env.

Import JS.

(** *** Code of the generators

    What a generator method or a task queued by a generator does to the
    environment, as the sequence of calls it makes. *)
Inductive Op :=
| OpWrite (path contents : string)
    (* this.fs.write(path, contents) on the shared staged filesystem *)
| OpQueueTask (priority : string) (task : list Op) (once : option string)
    (startQueue : option bool)
    (* env.queueTask(priority, task, { once, startQueue }) *)
| OpGeneratorError (generator : nat) (e : Error)
    (* generator.emit('error', e) *)
| OpSettle (resolve : bool) (v : Value)
    (* env.emit('generator:resolve', v) or env.emit('generator:reject', v) *)
| OpThrow (e : Error).

Definition Script := list Op.

(** [pick(..., ['force', 'bail', 'ignoreWhitespace', 'dryRun',
    'skipYoResolve', 'logCwd'])], plus the [cwd] that [start] adds. *)
Record ConflicterOptions := {
  force : option bool;
  bail : option bool;
  ignoreWhitespace : option bool;
  dryRun : option bool;
  skipYoResolve : option bool;
  logCwd : option string;
  cwd : option string;
}.

Definition no_options : ConflicterOptions :=
  {| force := None; bail := None; ignoreWhitespace := None; dryRun := None;
     skipYoResolve := None; logCwd := None; cwd := None |}.

(** An instantiated generator.  [g_queueTasks] is the method of the
    phased contract when the generator has one; [g_run] is the
    synchronous part of [generator.run()] and [g_result] the value its
    promise resolves with. *)
Record Generator := {
  g_id : nat;
  g_identity : string;
  g_queueTasks : option Script;
  g_run : Script;
  g_result : Value;
  g_forwardErrorToEnvironment : bool;
  g_options : ConflicterOptions;
}.

(** *** Listeners the environment registers *)

(** On the environment itself. *)
Inductive Handler :=
| HReject (promise : nat)          (* error => { reject(error); } *)
| HResolve (promise : nat)         (* error => { resolve(error); } *)
| HResolveVoid (promise : nat)     (* () => { resolve(); } *)
| HGeneratorEmit (generator : nat) (event : string).
                                   (* () => generator.emit(event) *)

#[global] Instance Handler_eq_dec : EqDecision Handler.
Proof. solve_decision. Defined.

(** On the run loop. *)
Inductive LoopHandler :=
| LForwardError     (* error => { this.emit('error', error); this.adapter.close(); } *)
| LForwardPaused    (* () => { this.emit('paused'); } *)
| LForwardEnd.      (* () => { this.emit('end'); } *)

#[global] Instance LoopHandler_eq_dec : EqDecision LoopHandler.
Proof. solve_decision. Defined.

(** On the shared staged filesystem. *)
Inductive FsHandler :=
| FQueueCommit.     (* queueCommit *)

#[global] Instance FsHandler_eq_dec : EqDecision FsHandler.
Proof. solve_decision. Defined.

(** *** Tasks *)

Inductive Action :=
| ARunGenerator (g : Generator)   (* () => runGenerator(), in queueGenerator *)
| ACommit                         (* the task of queueCommit *)
| AInstall                        (* the task of queuePackageManagerInstall *)
| AScript (ops : Script).         (* a task of a generator *)

Record Task := { t_action : Action; t_once : option string }.

Inductive LoopState := Idle | Running | Paused | Ended.

#[global] Instance LoopState_eq_dec : EqDecision LoopState.
Proof. solve_decision. Defined.

(** Modelled from the spec: the priority task scheduler ([grouped-queue],
    not part of the sources).  An ordered list of named sub-queues, each
    an ordered list of pending tasks; a task leaves its sub-queue when the
    scheduler takes it to run. *)
Record RunLoop := {
  queues : list (string * list Task);
  state : LoopState;
  loop_listeners : list (Emitter.Listener LoopHandler);
}.

(** *** The staged filesystem *)

Inductive FileState := Pending | Committed | Skipped.

#[global] Instance FileState_eq_dec : EqDecision FileState.
Proof. solve_decision. Defined.

Inductive Policy := Force | Skip.

#[global] Instance Policy_eq_dec : EqDecision Policy.
Proof. solve_decision. Defined.

(** Modelled from the spec: a staged file ([mem-fs-editor], not part of
    the sources): a path, the staged contents, the state flag, and the
    [conflicter] marker the commit pipeline reads. *)
Record StagedFile := {
  f_path : string;
  f_contents : string;
  f_state : FileState;
  f_conflicter : option Policy;
}.

Record SharedFs := {
  files : list StagedFile;
  fs_listeners : list (Emitter.Listener FsHandler);
}.

(** [const { customCommitTask } = this.composedStore]: absent, a function,
    or another value (the commit is disabled). *)
Inductive CustomCommitTask :=
| CustomUndefined
| CustomFunction (body : Script)
| CustomOther (v : Value).

Inductive CompatibilityMode := CompatUnset | CompatFalse | CompatV4.

Inductive Promise := PPending | PResolved (v : Value) | PRejected (v : Value).

#[global] Instance Promise_eq_dec : EqDecision Promise.
Proof. solve_decision. Defined.

(** What can be observed from outside, in the order it happens. *)
Inductive Event :=
| EvEmit (event : string) (args : list Value)       (* env.emit(event, ...args) *)
| EvGenerator (generator : nat) (event : string)    (* generator.emit(event) *)
| EvAdapterClose                                    (* adapter.close() *)
| EvPrompt (path : string)                          (* a conflict prompt *)
| EvWrite (path contents : string)                  (* a physical write *)
| EvPrepareEnvironment (name : string)              (* prepareEnvironment(name) *)
| EvInstallTask                                     (* packageManagerInstallTask(...) *)
| EvHelp (generator : nat)                          (* console.log(generator.help()) *)
| EvUncaught (e : Error).                           (* an exception nobody catches *)

#[global] Instance Event_eq_dec : EqDecision Event.
Proof. solve_decision. Defined.

Record Env := {
  aliases : list Alias.AliasRule;
  experimental : bool;
  options : ConflicterOptions;
  conflicterOptions : option ConflicterOptions;
  compatibilityMode : CompatibilityMode;
  _rootGenerator : option Generator;
  store : gmap string Generator;
  composedStore : gmap string Generator;
  customCommitTask : CustomCommitTask;
  listeners : list (Emitter.Listener Handler);
  forwarded : list nat;
  runLoop : RunLoop;
  sharedFs : SharedFs;
  disk : gmap string string;
  promises : list Promise;
  trace : list Event;
}.

(** *** Field updates *)

Definition set_aliases (f : list Alias.AliasRule -> list Alias.AliasRule)
    (e : Env) : Env :=
  {| aliases := f (aliases e); experimental := experimental e; options := options e;
     conflicterOptions := conflicterOptions e; compatibilityMode := compatibilityMode e;
     _rootGenerator := _rootGenerator e; store := store e; composedStore := composedStore e;
     customCommitTask := customCommitTask e; listeners := listeners e; forwarded := forwarded e;
     runLoop := runLoop e; sharedFs := sharedFs e; disk := disk e;
     promises := promises e; trace := trace e |}.

Definition set_conflicterOptions (f : option ConflicterOptions -> option ConflicterOptions)
    (e : Env) : Env :=
  {| aliases := aliases e; experimental := experimental e; options := options e;
     conflicterOptions := f (conflicterOptions e); compatibilityMode := compatibilityMode e;
     _rootGenerator := _rootGenerator e; store := store e; composedStore := composedStore e;
     customCommitTask := customCommitTask e; listeners := listeners e; forwarded := forwarded e;
     runLoop := runLoop e; sharedFs := sharedFs e; disk := disk e;
     promises := promises e; trace := trace e |}.

Definition set_compatibilityMode (f : CompatibilityMode -> CompatibilityMode)
    (e : Env) : Env :=
  {| aliases := aliases e; experimental := experimental e; options := options e;
     conflicterOptions := conflicterOptions e; compatibilityMode := f (compatibilityMode e);
     _rootGenerator := _rootGenerator e; store := store e; composedStore := composedStore e;
     customCommitTask := customCommitTask e; listeners := listeners e; forwarded := forwarded e;
     runLoop := runLoop e; sharedFs := sharedFs e; disk := disk e;
     promises := promises e; trace := trace e |}.

Definition set_rootGenerator (f : option Generator -> option Generator) (e : Env) : Env :=
  {| aliases := aliases e; experimental := experimental e; options := options e;
     conflicterOptions := conflicterOptions e; compatibilityMode := compatibilityMode e;
     _rootGenerator := f (_rootGenerator e); store := store e; composedStore := composedStore e;
     customCommitTask := customCommitTask e; listeners := listeners e; forwarded := forwarded e;
     runLoop := runLoop e; sharedFs := sharedFs e; disk := disk e;
     promises := promises e; trace := trace e |}.

Definition set_store (f : gmap string Generator -> gmap string Generator)
    (e : Env) : Env :=
  {| aliases := aliases e; experimental := experimental e; options := options e;
     conflicterOptions := conflicterOptions e; compatibilityMode := compatibilityMode e;
     _rootGenerator := _rootGenerator e; store := f (store e); composedStore := composedStore e;
     customCommitTask := customCommitTask e; listeners := listeners e; forwarded := forwarded e;
     runLoop := runLoop e; sharedFs := sharedFs e; disk := disk e;
     promises := promises e; trace := trace e |}.

Definition set_composedStore (f : gmap string Generator -> gmap string Generator)
    (e : Env) : Env :=
  {| aliases := aliases e; experimental := experimental e; options := options e;
     conflicterOptions := conflicterOptions e; compatibilityMode := compatibilityMode e;
     _rootGenerator := _rootGenerator e; store := store e; composedStore := f (composedStore e);
     customCommitTask := customCommitTask e; listeners := listeners e; forwarded := forwarded e;
     runLoop := runLoop e; sharedFs := sharedFs e; disk := disk e;
     promises := promises e; trace := trace e |}.

Definition set_listeners (f : list (Emitter.Listener Handler) -> list (Emitter.Listener Handler))
    (e : Env) : Env :=
  {| aliases := aliases e; experimental := experimental e; options := options e;
     conflicterOptions := conflicterOptions e; compatibilityMode := compatibilityMode e;
     _rootGenerator := _rootGenerator e; store := store e; composedStore := composedStore e;
     customCommitTask := customCommitTask e; listeners := f (listeners e); forwarded := forwarded e;
     runLoop := runLoop e; sharedFs := sharedFs e; disk := disk e;
     promises := promises e; trace := trace e |}.

Definition set_forwarded (f : list nat -> list nat) (e : Env) : Env :=
  {| aliases := aliases e; experimental := experimental e; options := options e;
     conflicterOptions := conflicterOptions e; compatibilityMode := compatibilityMode e;
     _rootGenerator := _rootGenerator e; store := store e; composedStore := composedStore e;
     customCommitTask := customCommitTask e; listeners := listeners e; forwarded := f (forwarded e);
     runLoop := runLoop e; sharedFs := sharedFs e; disk := disk e;
     promises := promises e; trace := trace e |}.

Definition set_runLoop (f : RunLoop -> RunLoop) (e : Env) : Env :=
  {| aliases := aliases e; experimental := experimental e; options := options e;
     conflicterOptions := conflicterOptions e; compatibilityMode := compatibilityMode e;
     _rootGenerator := _rootGenerator e; store := store e; composedStore := composedStore e;
     customCommitTask := customCommitTask e; listeners := listeners e; forwarded := forwarded e;
     runLoop := f (runLoop e); sharedFs := sharedFs e; disk := disk e;
     promises := promises e; trace := trace e |}.

Definition set_sharedFs (f : SharedFs -> SharedFs) (e : Env) : Env :=
  {| aliases := aliases e; experimental := experimental e; options := options e;
     conflicterOptions := conflicterOptions e; compatibilityMode := compatibilityMode e;
     _rootGenerator := _rootGenerator e; store := store e; composedStore := composedStore e;
     customCommitTask := customCommitTask e; listeners := listeners e; forwarded := forwarded e;
     runLoop := runLoop e; sharedFs := f (sharedFs e); disk := disk e;
     promises := promises e; trace := trace e |}.

Definition set_disk (f : gmap string string -> gmap string string) (e : Env) : Env :=
  {| aliases := aliases e; experimental := experimental e; options := options e;
     conflicterOptions := conflicterOptions e; compatibilityMode := compatibilityMode e;
     _rootGenerator := _rootGenerator e; store := store e; composedStore := composedStore e;
     customCommitTask := customCommitTask e; listeners := listeners e; forwarded := forwarded e;
     runLoop := runLoop e; sharedFs := sharedFs e; disk := f (disk e);
     promises := promises e; trace := trace e |}.

Definition set_promises (f : list Promise -> list Promise) (e : Env) : Env :=
  {| aliases := aliases e; experimental := experimental e; options := options e;
     conflicterOptions := conflicterOptions e; compatibilityMode := compatibilityMode e;
     _rootGenerator := _rootGenerator e; store := store e; composedStore := composedStore e;
     customCommitTask := customCommitTask e; listeners := listeners e; forwarded := forwarded e;
     runLoop := runLoop e; sharedFs := sharedFs e; disk := disk e;
     promises := f (promises e); trace := trace e |}.

Definition set_trace (f : list Event -> list Event) (e : Env) : Env :=
  {| aliases := aliases e; experimental := experimental e; options := options e;
     conflicterOptions := conflicterOptions e; compatibilityMode := compatibilityMode e;
     _rootGenerator := _rootGenerator e; store := store e; composedStore := composedStore e;
     customCommitTask := customCommitTask e; listeners := listeners e; forwarded := forwarded e;
     runLoop := runLoop e; sharedFs := sharedFs e; disk := disk e;
     promises := promises e; trace := f (trace e) |}.

End Env.

(** ** Computations over the environment

    A method of the environment takes the state and gives the new state
    with either the error it threw or the value it returned. *)

Module M.

Import JS Env.

Definition t (A : Type) : Type := Env -> Env * (Error + A).

Definition ret {A} (a : A) : t A := fun e => (e, inr a).

Definition throw {A} (err : Error) : t A := fun e => (e, inl err).

Definition bind {A B} (c : t A) (k : A -> t B) : t B :=
  fun e =>
    match c e with
    | (e', inr a) => k a e'
    | (e', inl err) => (e', inl err)
    end.

(** A state update that cannot fail. *)
Definition modify (f : Env -> Env) : t unit := fun e => (f e, inr tt).

Definition gets {A} (f : Env -> A) : t A := fun e => (e, inr (f e)).

(** [try { c } catch {}] *)
Definition try_catch (c : t unit) : t unit :=
  fun e => (fst (c e), inr tt).

(** [for (const x of xs) body(x)], stopping at the first exception. *)
Fixpoint for_each {A} (body : A -> t unit) (xs : list A) : t unit :=
  match xs with
  | [] => ret tt
  | x :: xs => bind (body x) (fun _ => for_each body xs)
  end.

(** The state a computation leaves. *)
Definition exec {A} (c : t A) (e : Env) : Env := fst (c e).

End M.

Declare Scope env_scope.
Delimit Scope env_scope with env.
Notation "x <- c ;; k" := (M.bind c (fun x => k))
  (at level 100, c at next level, right associativity) : env_scope.
Notation "c ;; k" := (M.bind c (fun _ => k))
  (at level 100, right associativity) : env_scope.

(** ** The environment's methods *)

Module Environment.

Import JS Env.
Local Open Scope env_scope.

(** *** Updates of the run loop and of the staged filesystem *)

Definition set_queues (f : list (string * list Task) -> list (string * list Task))
    : Env -> Env :=
  set_runLoop (fun l =>
    {| queues := f (queues l); state := state l; loop_listeners := loop_listeners l |}).

Definition set_state (s : LoopState) : Env -> Env :=
  set_runLoop (fun l =>
    {| queues := queues l; state := s; loop_listeners := loop_listeners l |}).

Definition set_loop_listeners
    (f : list (Emitter.Listener LoopHandler) -> list (Emitter.Listener LoopHandler))
    : Env -> Env :=
  set_runLoop (fun l =>
    {| queues := queues l; state := state l; loop_listeners := f (loop_listeners l) |}).

Definition set_files (f : list StagedFile -> list StagedFile) : Env -> Env :=
  set_sharedFs (fun s => {| files := f (files s); fs_listeners := fs_listeners s |}).

Definition set_fs_listeners
    (f : list (Emitter.Listener FsHandler) -> list (Emitter.Listener FsHandler))
    : Env -> Env :=
  set_sharedFs (fun s => {| files := files s; fs_listeners := f (fs_listeners s) |}).

Definition log (ev : Event) : Env -> Env := set_trace (fun t => t ++ [ev]).

(** *** Promises and [emit] on the environment *)

(** [resolve(v)] or [reject(v)] of the promise [p]: the first call settles
    it, the later ones do nothing. *)
Definition settle (p : nat) (outcome : Promise) : Env -> Env :=
  set_promises (fun ps =>
    match ps !! p with
    | Some PPending => <[p := outcome]> ps
    | _ => ps
    end).

Definition arg0 (args : list Value) : Value := default VUndefined (head args).

Definition call (h : Handler) (args : list Value) : Env -> Env :=
  match h with
  | HReject p => settle p (PRejected (arg0 args))
  | HResolve p => settle p (PResolved (arg0 args))
  | HResolveVoid p => settle p (PResolved VUndefined)
  | HGeneratorEmit g event => log (EvGenerator g event)
  end.

(** What [emit('error', v)] throws when nobody listens. *)
Definition thrown (v : Value) : Error :=
  match v with
  | VError err => err
  | _ => PlainError "Unhandled error."
  end.

(** [this.emit(event, ...args)] *)
Definition emit (event : string) (args : list Value) : M.t unit :=
  fun e =>
    let e := log (EvEmit event args) e in
    match Emitter.listeners event (listeners e) with
    | [] =>
        if String.eqb event "error" then (e, inl (thrown (arg0 args))) else (e, inr tt)
    | ls =>
        (fold_left
           (fun e l =>
              call (Emitter.l_handler l) args (set_listeners (Emitter.before_call l) e))
           ls e, inr tt)
    end.

(** *** The scheduler *)

Definition has_once (key : string) (ts : list Task) : bool :=
  existsb (fun t => bool_decide (t_once t = Some key)) ts.

(** Modelled from the spec: appending to a sub-queue.  A task with a
    once-key is dropped when a task with the same key is in the sub-queue. *)
Definition push (t : Task) (ts : list Task) : list Task :=
  match t_once t with
  | Some key => if has_once key ts then ts else ts ++ [t]
  | None => ts ++ [t]
  end.

Fixpoint push_to (name : string) (t : Task) (qs : list (string * list Task))
    : option (list (string * list Task)) :=
  match qs with
  | [] => None
  | (n, ts) :: qs =>
      if String.eqb n name then Some ((n, push t ts) :: qs)
      else cons (n, ts) <$> push_to name t qs
  end.

(** Modelled from the spec: [runLoop.add(name, task, { once, run })]
    appends the task and, when asked to and the scheduler is idle, sets it
    running.  The spec leaves a name without sub-queue open; indexing the
    missing sub-queue is taken to throw. *)
Definition runLoop_add (name : string) (t : Task) (run : bool) : M.t unit :=
  fun e =>
    match push_to name t (queues (runLoop e)) with
    | None => (e, inl (TypeError "Cannot read properties of undefined (reading 'push')"))
    | Some qs =>
        let e := set_queues (fun _ => qs) e in
        (if run && bool_decide (state (runLoop e) = Idle) then set_state Running e else e,
         inr tt)
    end.

(** Modelled from the spec: [runLoop.start()] begins draining; the ended
    state is terminal. *)
Definition runLoop_start (e : Env) : Env :=
  match state (runLoop e) with
  | Idle | Paused => set_state Running e
  | Running | Ended => e
  end.

(** [queueTask(priority, task, options)].  The function handed to the run
    loop wraps [task]; see [wrapped] below for what it does when run. *)
Definition queueTask (priority : string) (task : Action) (once : option string)
    (startQueue : option bool) : M.t unit :=
  runLoop_add priority {| t_action := task; t_once := once |} (default false startQueue).

(** [queueCommit()] and the closure of the same name inside it. *)
Definition queueCommit : M.t unit :=
  queueTask "environment:conflicts" ACommit (Some "write memory fs to disk") None.

(** [queuePackageManagerInstall()] *)
Definition queuePackageManagerInstall : M.t unit :=
  queueTask "install" AInstall (Some "package manager install") None.

(** *** The staged filesystem *)

Fixpoint stage (f : StagedFile) (fs : list StagedFile) : list StagedFile :=
  match fs with
  | [] => [f]
  | g :: fs => if String.eqb (f_path g) (f_path f) then f :: fs else g :: stage f fs
  end.

Definition fs_call (h : FsHandler) : M.t unit :=
  match h with
  | FQueueCommit => queueCommit
  end.

(** [sharedFs.emit('change')] *)
Definition sharedFs_emit_change : M.t unit :=
  fun e =>
    M.for_each
      (fun l => M.modify (set_fs_listeners (Emitter.before_call l));;
                fs_call (Emitter.l_handler l))
      (Emitter.listeners "change" (fs_listeners (sharedFs e))) e.

(** Modelled from the spec: staging a write marks the file pending and
    fires the "changed" notification of the staged filesystem. *)
Definition write (path contents : string) : M.t unit :=
  M.modify (set_files (stage {| f_path := path; f_contents := contents;
                                f_state := Pending; f_conflicter := None |}));;
  sharedFs_emit_change.

(** *** Running the code of a generator *)

(** [generator.emit('error', err)]: every listener [queueGenerator] put on
    the generator forwards to the environment; with none, the emitter
    throws [err]. *)
Definition generator_emit_error (g : nat) (err : Error) : M.t unit :=
  fun e =>
    match filter (fun g' => g' = g) (forwarded e) with
    | [] => (e, inl err)
    | gs => M.for_each (fun _ => emit "error" [VError err]) gs e
    end.

Definition run_op (op : Op) : M.t unit :=
  match op with
  | OpWrite path contents => write path contents
  | OpQueueTask priority task once startQueue =>
      queueTask priority (AScript task) once startQueue
  | OpGeneratorError g err => generator_emit_error g err
  | OpSettle true v => emit "generator:resolve" [v]
  | OpSettle false v => emit "generator:reject" [v]
  | OpThrow err => M.throw err
  end.

Definition run_script : Script -> M.t unit := M.for_each run_op.

(** The closure [runGenerator] inside [queueGenerator]. *)
Definition queueGenerator_runGenerator (g : Generator) : M.t unit :=
  match g_queueTasks g with
  | Some queueTasks =>
      M.modify (set_listeners (Emitter.once "run" (HGeneratorEmit (g_id g) "run")));;
      M.modify (set_listeners (Emitter.once "end" (HGeneratorEmit (g_id g) "end")));;
      run_script queueTasks
  | None =>
      (if negb (g_forwardErrorToEnvironment g)
       then M.modify (set_forwarded (fun gs => gs ++ [g_id g]))
       else M.ret tt);;
      run_script (g_run g)
  end.

(** *** What lies outside the environment

    The collaborators the environment calls and whose code is elsewhere:
    the namespace parser, module resolution, the persisted resolution
    file, the interactive adapter and the installer. *)

Inductive Answer := Overwrite | SkipFile | Abort.

Record World := {
  (** [toNamespace(id)?.namespace] *)
  toNamespace : string -> option string;
  (** [resolveModulePath(id)]: the namespace of the module found and the
      generator it exports *)
  resolveModulePath : string -> option (string * Generator);
  (** the decision the persisted resolution file records for a path *)
  yoResolve : string -> option Policy;
  (** the reply of the interactive adapter to a conflict prompt *)
  prompt : string -> Answer;
  (** the generator [prepareEnvironment(name)] installs, if it can *)
  installable : string -> option Generator;
}.

Section WithWorld.

Variable w : World.

(** *** The commit pipeline ([commitSharedFs]) *)

Definition isFilePending (f : StagedFile) : bool :=
  bool_decide (f_state f = Pending).

(** The last segment of a path. *)
Fixpoint basename_from (segment : string) (path : string) : string :=
  match path with
  | EmptyString => segment
  | String c path =>
      if Ascii.eqb c "/" then basename_from "" path
      else basename_from (segment +:+ String c "") path
  end.

Definition basename : string -> string := basename_from "".

(** The glob [**/{.yo-rc.json,.yo-resolve,.yo-rc-global.json}]. *)
Definition control_files : list string :=
  [".yo-rc.json"; ".yo-resolve"; ".yo-rc-global.json"].

Definition matches_control_file (path : string) : bool :=
  bool_decide (basename path ∈ control_files).

Definition with_conflicter (p : option Policy) (f : StagedFile) : StagedFile :=
  {| f_path := f_path f; f_contents := f_contents f; f_state := f_state f;
     f_conflicter := p |}.

Definition with_state (s : FileState) (f : StagedFile) : StagedFile :=
  {| f_path := f_path f; f_contents := f_contents f; f_state := s;
     f_conflicter := f_conflicter f |}.

(** [passthrough(file => { file.conflicter = 'force'; }, { pattern })] *)
Definition force_control_files (f : StagedFile) : StagedFile :=
  if matches_control_file (f_path f) then with_conflicter (Some Force) f else f.

(** Modelled from the spec: [createYoResolveTransform()] (from
    [@yeoman/conflicter], not part of the sources) applies the
    persisted resolution file to the files no policy marks yet. *)
Definition yoResolveTransform (f : StagedFile) : StagedFile :=
  match f_conflicter f with
  | Some _ => f
  | None => with_conflicter (yoResolve w (f_path f)) f
  end.

Definition differs_on_disk (f : StagedFile) (e : Env) : bool :=
  match disk e !! f_path f with
  | Some contents => negb (String.eqb contents (f_contents f))
  | None => false
  end.

Inductive Decision := DoWrite | DoSkip | DoAbort.

(** Modelled from the spec: [createConflicterTransform(adapter, options)]
    (from [@yeoman/conflicter], not part of the sources).  A file under
    a force policy is overwritten and one the resolution file skips is
    skipped; another file whose target differs on disk is a conflict:
    overwritten under the force option, skipped under dry-run, otherwise
    settled by a prompt. *)
Definition conflicterTransform (opts : ConflicterOptions) (f : StagedFile)
    : M.t Decision :=
  match f_conflicter f with
  | Some Force => M.ret DoWrite
  | Some Skip => M.ret DoSkip
  | None =>
      differs <- M.gets (differs_on_disk f);;
      if differs then
        if bool_decide (force opts = Some true) then M.ret DoWrite
        else if bool_decide (dryRun opts = Some true) then M.ret DoSkip
        else
          M.modify (log (EvPrompt (f_path f)));;
          M.ret (match prompt w (f_path f) with
                 | Overwrite => DoWrite
                 | SkipFile => DoSkip
                 | Abort => DoAbort
                 end)
      else M.ret DoWrite
  end.

(** Modelled from the spec: [createCommitTransform(fs)] (from
    [mem-fs-editor], not part of the sources) writes the resolved file
    and marks it committed; an abort fails the task. *)
Definition commitTransform (f : StagedFile) (d : Decision) : M.t unit :=
  match d with
  | DoWrite =>
      M.modify (set_disk (fun d => <[f_path f := f_contents f]> d));;
      M.modify (log (EvWrite (f_path f) (f_contents f)));;
      M.modify (set_files (stage (with_state Committed f)))
  | DoSkip => M.modify (set_files (stage (with_state Skipped f)))
  | DoAbort => M.throw (PlainError "Process aborted by conflict")
  end.

(** [commitSharedFs()]: the pending files, each through the four
    transforms in turn. *)
Definition commitSharedFs : M.t unit :=
  opts <- M.gets (fun e => default no_options (conflicterOptions e));;
  pending <- M.gets (fun e => filter (fun f => isFilePending f = true) (files (sharedFs e)));;
  M.for_each
    (fun f =>
       let f := yoResolveTransform (force_control_files f) in
       d <- conflicterTransform opts f;;
       commitTransform f d)
    pending.

(** *** The tasks the environment queues *)

(** The task of [queueCommit]. *)
Definition commit_task : M.t unit :=
  custom <- M.gets customCommitTask;;
  match custom with
  | CustomOther _ => M.ret tt
  | CustomFunction body =>
      run_script body;;
      M.modify (set_fs_listeners (Emitter.once "change" FQueueCommit))
  | CustomUndefined =>
      commitSharedFs;;
      M.modify (set_fs_listeners (Emitter.once "change" FQueueCommit))
  end.

(** The task of [queuePackageManagerInstall].  Modelled from the spec:
    [packageManagerInstallTask] ([package-manager.js], not part of the
    sources) recovers from its own failures. *)
Definition install_task : M.t unit :=
  compat <- M.gets compatibilityMode;;
  match compat with
  | CompatV4 => M.ret tt
  | _ => M.modify (log EvInstallTask)
  end.

Definition run_action (a : Action) : M.t unit :=
  match a with
  | ARunGenerator g => queueGenerator_runGenerator g
  | ACommit => commit_task
  | AInstall => install_task
  | AScript ops => run_script ops
  end.

(** *** The run loop at work *)

Inductive Signal := Done | Stop (err : Error).

(** The function [queueTask] hands to the run loop:
    [try { await task(); done(); } catch (error) { stop(error); }] *)
Definition wrapped (a : Action) (e : Env) : Env * Signal :=
  match run_action a e with
  | (e', inr _) => (e', Done)
  | (e', inl err) => (e', Stop err)
  end.

(** The first task of the first sub-queue that has one. *)
Fixpoint next_task (qs : list (string * list Task))
    : option (Task * list (string * list Task)) :=
  match qs with
  | [] => None
  | (n, []) :: qs => (fun '(t, qs') => (t, (n, []) :: qs')) <$> next_task qs
  | (n, t :: ts) :: qs => Some (t, (n, ts) :: qs)
  end.

(** The listeners [start] puts on the run loop. *)
Definition loop_call (h : LoopHandler) (args : list Value) : M.t unit :=
  match h with
  | LForwardError => emit "error" args;; M.modify (log EvAdapterClose)
  | LForwardPaused => emit "paused" []
  | LForwardEnd => emit "end" []
  end.

(** [runLoop.emit(event, ...args)] *)
Definition runLoop_emit (event : string) (args : list Value) : M.t unit :=
  fun e =>
    match Emitter.listeners event (loop_listeners (runLoop e)) with
    | [] =>
        if String.eqb event "error" then (e, inl (thrown (arg0 args))) else (e, inr tt)
    | ls =>
        M.for_each
          (fun l => M.modify (set_loop_listeners (Emitter.before_call l));;
                    loop_call (Emitter.l_handler l) args)
          ls e
    end.

(** Modelled from the spec: the [stop] callback pauses the scheduler and
    surfaces the error to the listeners of the run loop. *)
Definition stop (err : Error) : M.t unit :=
  M.modify (set_state Paused);;
  runLoop_emit "error" [VError err];;
  runLoop_emit "paused" [].

(** An exception that reaches the event loop. *)
Definition uncaught (c : M.t unit) (e : Env) : Env :=
  match c e with
  | (e', inl err) => log (EvUncaught err) e'
  | (e', inr _) => e'
  end.

(** Modelled from the spec: one turn of the scheduler.  While running it
    takes the next task in sub-queue order and runs it to its signal;
    with nothing pending anywhere it ends. *)
Definition loop_step (e : Env) : Env :=
  match state (runLoop e) with
  | Running =>
      match next_task (queues (runLoop e)) with
      | Some (t, qs) =>
          match wrapped (t_action t) (set_queues (fun _ => qs) e) with
          | (e', Done) => e'
          | (e', Stop err) => uncaught (stop err) e'
          end
      | None => uncaught (runLoop_emit "end" []) (set_state Ended e)
      end
  | _ => e
  end.

Fixpoint run_loop (turns : nat) (e : Env) : Env :=
  match turns with
  | 0 => e
  | S turns => run_loop turns (loop_step e)
  end.

End WithWorld.

(** *** Composition *)

(** Modelled from the spec: [composedStore.addGenerator(generator)]
    ([composed-store.js], not part of the sources).  The identifier is
    derived from the generator itself; a generator whose identifier is in
    the store is not added and the stored instance is returned. *)
Record Composed := { added : bool; identifier : string; generator : Generator }.

Definition addGenerator (g : Generator) : M.t Composed :=
  fun e =>
    match composedStore e !! g_identity g with
    | Some stored =>
        (e, inr {| added := false; identifier := g_identity g; generator := stored |})
    | None =>
        (set_composedStore (fun s => <[g_identity g := g]> s) e,
         inr {| added := true; identifier := g_identity g; generator := g |})
    end.

(** [queueGenerator(generator, queueOptions)], with [schedule] the value
    [queueOptions] stands for. *)
Definition queueGenerator (g : Generator) (schedule : bool) : M.t Generator :=
  c <- addGenerator g;;
  if negb (added c) then M.ret (generator c)
  else
    emit "compose" [VString (identifier c); VObject (g_id g)];;
    emit ("compose:" +:+ identifier c) [VObject (g_id g)];;
    (if schedule
     then queueTask "environment:run" (ARunGenerator g) None None
     else queueGenerator_runGenerator g);;
    M.ret g.

(** *** Starting a run *)

Definition first_defined {A} (x y : option A) : option A :=
  match x with
  | Some _ => x
  | None => y
  end.

(** [pick(defaults({}, this.options, options), [...])] *)
Definition defaults (mine given : ConflicterOptions) : ConflicterOptions :=
  {| force := first_defined (force mine) (force given);
     bail := first_defined (bail mine) (bail given);
     ignoreWhitespace := first_defined (ignoreWhitespace mine) (ignoreWhitespace given);
     dryRun := first_defined (dryRun mine) (dryRun given);
     skipYoResolve := first_defined (skipYoResolve mine) (skipYoResolve given);
     logCwd := first_defined (logCwd mine) (logCwd given);
     cwd := None |}.

Definition with_cwd (o : ConflicterOptions) : ConflicterOptions :=
  {| force := force o; bail := bail o; ignoreWhitespace := ignoreWhitespace o;
     dryRun := dryRun o; skipYoResolve := skipYoResolve o; logCwd := logCwd o;
     cwd := logCwd o |}.

(** The executor of the promise [start] returns.  [this.conflicter] is
    assigned nowhere, so the branch guarded by
    [this.conflicter === undefined] is always taken. *)
Definition start_executor (p : nat) (given : ConflicterOptions) : M.t unit :=
  M.modify (fun e =>
    set_conflicterOptions (fun _ => Some (with_cwd (defaults (options e) given))) e);;
  queueCommit;;
  queuePackageManagerInstall;;
  M.modify (set_listeners (Emitter.on "error" (HReject p)));;
  M.modify (set_listeners (Emitter.on "generator:reject" (HReject p)));;
  M.modify (set_listeners (Emitter.on "generator:resolve" (HResolve p)));;
  M.modify (set_loop_listeners (Emitter.on "error" LForwardError));;
  M.modify (set_loop_listeners (Emitter.on "paused" LForwardPaused));;
  M.modify (set_listeners (Emitter.once "end" (HResolveVoid p)));;
  M.modify (set_loop_listeners (Emitter.once "end" LForwardEnd));;
  emit "run" [];;
  M.modify runLoop_start.

(** [start(options)]: the new state and the promise returned, by its index
    in [promises].  An exception in the executor rejects the promise. *)
Definition start (given : ConflicterOptions) (e : Env) : Env * nat :=
  let p := length (promises e) in
  match start_executor p given (set_promises (fun ps => ps ++ [PPending]) e) with
  | (e', inr _) => (e', p)
  | (e', inl err) => (settle p (PRejected (VError err)) e', p)
  end.

(** [rootGenerator()] *)
Definition rootGenerator (e : Env) : option Generator := _rootGenerator e.

(** [runGenerator(generator)] *)
Definition runGenerator (g : Generator) : M.t nat :=
  g <- queueGenerator g false;;
  M.modify (set_compatibilityMode (fun _ =>
    match g_queueTasks g with Some _ => CompatFalse | None => CompatV4 end));;
  M.modify (set_rootGenerator (fun root =>
    match root with Some _ => root | None => Some g end));;
  fun e => let (e', p) := start (g_options g) e in (e', inr p).

(** *** Resolving and running a generator by name *)

(** A promise object, with what [await] gives for it. *)
Inductive PromiseOf (A : Type) := Settles (outcome : Error + A).
Arguments Settles {A} outcome.

(** The promise as the value a guard looks at. *)
Definition as_value {A} (p : PromiseOf A) : Value := VPromise.

Definition await {A} (p : PromiseOf A) : M.t A :=
  fun e => match p with Settles outcome => (e, outcome) end.

(** The error [create] throws for a name without generator: the first
    line of its message, uncoloured, with the name for [generatorHint]. *)
Definition not_found (name : string) : Error :=
  TypeError ("You don't seem to have a generator with the name " +:+ name +:+ " installed.").

Section Resolution.

Variable w : World.

(** The body of the async function [get(namespaceOrPath)], for a string
    argument.  Modelled from the spec: [this.store] ([store.js], not part
    of the sources) maps a namespace to the generator registered under it. *)
Definition get_body (name : string) : M.t (option Generator) :=
  if String.eqb name "" then M.ret None
  else
    match toNamespace w name with
    | Some ns =>
        M.gets (fun e =>
          first_defined (store e !! ns)
            (store e !! fold_left Alias.apply_rule (rev (aliases e)) ns))
    | None =>
        found <- M.gets (fun e =>
          first_defined (store e !! name)
            (store e !! fold_left Alias.apply_rule (rev (aliases e)) name));;
        match found with
        | Some g => M.ret (Some g)
        | None =>
            match resolveModulePath w name with
            | Some (namespace, g) =>
                M.modify (set_store (fun s => <[namespace := g]> s));;
                M.gets (fun e => store e !! namespace)
            | None => M.ret None
            end
        end
    end.

(** [get(namespaceOrPath)]: calling an async function gives a promise. *)
Definition get (name : string) (e : Env) : Env * PromiseOf (option Generator) :=
  let (e', outcome) := get_body name e in (e', Settles outcome).

(** Modelled from the spec: [prepareEnvironment(name)] (not part of the
    sources) tries to install the generator and registers it. *)
Definition prepareEnvironment (name : string) : M.t unit :=
  M.modify (log (EvPrepareEnvironment name));;
  match installable w name with
  | Some g => M.modify (set_store (fun s => <[name := g]> s))
  | None => M.throw (PlainError "installation failed")
  end.

(** Modelled from the spec: [instantiate(Generator, args, options)] (not
    part of the sources) makes the instance, with the options given. *)
Definition instantiate (g : Generator) (args : list string) (opts : ConflicterOptions)
    : M.t Generator :=
  M.ret {| g_id := g_id g; g_identity := g_identity g; g_queueTasks := g_queueTasks g;
           g_run := g_run g; g_result := g_result g;
           g_forwardErrorToEnvironment := g_forwardErrorToEnvironment g;
           g_options := opts |}.

(** [create(namespaceOrPath, args, options)], for a string and an array.
    The guard [!maybeGenerator] looks at the promise, not at what it
    settles to. *)
Definition create (name : string) (args : list string) (opts : ConflicterOptions)
    : M.t Generator :=
  fun e =>
    let (e, maybeGenerator) := get name e in
    (maybeGenerator <-
       (if negb (truthy (as_value maybeGenerator))
        then
          (* await this.lookupLocalNamespaces(namespace);
             maybeGenerator = await this.get(namespace); *)
          found <- get_body name;; M.ret (Settles (inr found))
        else M.ret maybeGenerator);;
     found <- await maybeGenerator;;
     match found with
     | Some g => instantiate g args opts
     | None => M.throw (not_found name)
     end) e.

(** [run(args, options)], for an array of arguments.  [help] is
    [options.help].  [loadEnvironmentOptions] only copies [skipInstall] and
    [nodePackageManager], which nothing here reads. *)
Definition run (args : list string) (opts : ConflicterOptions) (help : bool)
    : M.t (option nat) :=
  match args with
  | [] | "" :: _ =>
      M.throw (PlainError
        "Must provide at least one argument, the generator namespace to invoke.")
  | name :: args =>
      let instantiateAndRun : M.t (option nat) :=
        g <- create name args opts;;
        if help then M.modify (log (EvHelp (g_id g)));; M.ret None
        else p <- runGenerator g;; M.ret (Some p) in
      (* if (this.experimental && !this.get(name)): [get] is only called
         in experimental mode *)
      (fun e =>
         if experimental e
         then
           let (e, found) := get name e in
           if negb (truthy (as_value found))
           then (M.try_catch (prepareEnvironment name);; instantiateAndRun) e
           else instantiateAndRun e
         else instantiateAndRun e)
  end.

End Resolution.

(** *** A new environment *)

(** The constructor, given the names of the default sub-queues
    ([defaultQueues] of [constants.js]) and the options that matter here. *)
Definition new_environment (defaultQueues : list string) (opts : ConflicterOptions)
    (experimental_ : bool) : Env :=
  {| aliases := Alias.initial_aliases;
     experimental := experimental_;
     options := opts;
     conflicterOptions := None;
     compatibilityMode := CompatUnset;
     _rootGenerator := None;
     store := ∅;
     composedStore := ∅;
     customCommitTask := CustomUndefined;
     listeners := [];
     forwarded := [];
     runLoop := {| queues := (fun n => (n, [])) <$> defaultQueues; state := Idle;
                   loop_listeners := [] |};
     sharedFs := {| files := []; fs_listeners := [] |};
     disk := ∅;
     promises := [];
     trace := [] |}.

(** *** Calls from outside

    What the code around the environment does with it, one call at a time;
    [Turn] is the event loop giving the run loop its next turn. *)

Inductive Call :=
| CallQueueGenerator (g : Generator) (schedule : bool)
| CallRunGenerator (g : Generator)
| CallStart (given : ConflicterOptions)
| CallRun (args : list string) (opts : ConflicterOptions) (help : bool)
| CallQueueTask (priority : string) (task : Script) (once : option string)
    (startQueue : option bool)
| Turn.

Definition perform (w : World) (c : Call) (e : Env) : Env :=
  match c with
  | CallQueueGenerator g schedule => M.exec (queueGenerator g schedule) e
  | CallRunGenerator g => M.exec (runGenerator g) e
  | CallStart given => fst (start given e)
  | CallRun args opts help => M.exec (run w args opts help) e
  | CallQueueTask priority task once startQueue =>
      M.exec (queueTask priority (AScript task) once startQueue) e
  | Turn => loop_step w e
  end.

Definition perform_all (w : World) (calls : list Call) (e : Env) : Env :=
  fold_left (fun e c => perform w c e) calls e.

(** *** Reading the trace *)

(** The events [start] listens to on the environment, with what each does
    to the promise it returned. *)
Definition settles (ev : Event) : option Promise :=
  match ev with
  | EvEmit event args =>
      if String.eqb event "error" || String.eqb event "generator:reject"
      then Some (PRejected (arg0 args))
      else if String.eqb event "generator:resolve" then Some (PResolved (arg0 args))
      else if String.eqb event "end" then Some (PResolved VUndefined)
      else None
  | _ => None
  end.

(** The outcome the first settling event of a trace gives. *)
Fixpoint outcome_of (events : list Event) : Promise :=
  match events with
  | [] => PPending
  | ev :: events =>
      match settles ev with
      | Some outcome => outcome
      | None => outcome_of events
      end
  end.

(** The events since the trace was [n] long. *)
Definition events_since (n : nat) (e : Env) : list Event := drop n (trace e).

(** The global composition events of an identifier. *)
Definition is_compose (id : string) (ev : Event) : bool :=
  match ev with
  | EvEmit "compose" (VString id' :: _) => String.eqb id' id
  | _ => false
  end.

(** The per-identifier composition events of an identifier. *)
Definition is_compose_of (id : string) (ev : Event) : bool :=
  match ev with
  | EvEmit name _ => String.eqb name ("compose:" +:+ id)
  | _ => false
  end.

Definition count_events (p : Event -> bool) (events : list Event) : nat :=
  length (List.filter p events).

Definition is_prepareEnvironment (ev : Event) : bool :=
  match ev with
  | EvPrepareEnvironment _ => true
  | _ => false
  end.


Definition has_queue (name : string) (e : Env) : bool :=
  existsb (fun q => String.eqb (fst q) name) (queues (runLoop e)).

(** *** The steps a call is made of *)

(** Events other than the environment's own [emit]s and the call of
    [prepareEnvironment]. *)
Definition plain_event (ev : Event) : bool :=
  match ev with
  | EvEmit _ _ | EvPrepareEnvironment _ => false
  | _ => true
  end.

(** The event names the run loop and the tasks emit on the environment. *)
Definition run_events : list string :=
  ["run"; "error"; "paused"; "end"; "generator:resolve"; "generator:reject"].

(** One update of the state by a task: an update of what neither the
    promises, the listeners of the environment, the trace, the composed
    store, the root generator nor the listeners of the run loop depend on,
    which leaves the scheduler in its state or sets an idle one running;
    a plain event; a new listener that forwards to a generator; an
    [emit]. *)
Inductive step : Env -> Env -> Prop :=
| step_frame (e e' : Env) :
    promises e' = promises e -> listeners e' = listeners e -> trace e' = trace e ->
    composedStore e' = composedStore e -> _rootGenerator e' = _rootGenerator e ->
    loop_listeners (runLoop e') = loop_listeners (runLoop e) ->
    (state (runLoop e') = state (runLoop e)
     \/ (state (runLoop e) = Idle /\ state (runLoop e') = Running)) ->
    step e e'
| step_log (ev : Event) (e : Env) :
    plain_event ev = true -> step e (log ev e)
| step_listen (event : string) (g : nat) (event' : string) (e : Env) :
    step e (set_listeners (Emitter.once event (HGeneratorEmit g event')) e)
| step_emit (event : string) (args : list Value) (e : Env) :
    In event run_events -> step e (M.exec (emit event args) e).

(** One update of the state in a turn of the run loop: that of a task, a
    change of state of the scheduler, or the call of a listener of the run
    loop. *)
Inductive turn_step : Env -> Env -> Prop :=
| turn_step_step (e e' : Env) : step e e' -> turn_step e e'
| turn_step_state (s : LoopState) (e : Env) : turn_step e (set_state s e)
| turn_step_call (l : Emitter.Listener LoopHandler) (e : Env) :
    turn_step e (set_loop_listeners (Emitter.before_call l) e).

(** The composition of a generator that is not in the store: it enters
    the store and the two composition events are emitted. *)
Definition compose (g : Generator) (e : Env) : Env :=
  M.exec (emit ("compose:" +:+ g_identity g) [VObject (g_id g)])
    (M.exec (emit "compose" [VString (g_identity g); VObject (g_id g)])
       (set_composedStore (fun s => <[g_identity g := g]> s) e)).

(** One update of the state during a call. *)
Inductive call_step : Env -> Env -> Prop :=
| call_step_step (e e' : Env) : turn_step e e' -> call_step e e'
| call_step_loop_listen (l : Emitter.Listener LoopHandler) (e : Env) :
    call_step e (set_loop_listeners (fun ls => ls ++ [l]) e)
| call_step_compose (g : Generator) (e : Env) :
    composedStore e !! g_identity g = None -> call_step e (compose g e)
| call_step_promise (e : Env) :
    call_step e (set_promises (fun ps => ps ++ [PPending]) e)
| call_step_settle (p : nat) (outcome : Promise) (e : Env) :
    call_step e (settle p outcome e)
| call_step_listen (l : Emitter.Listener Handler) (e : Env) :
    call_step e (set_listeners (fun ls => ls ++ [l]) e)
| call_step_root (g : Generator) (e : Env) :
    call_step e (set_rootGenerator (fun root =>
      match root with Some _ => root | None => Some g end) e).




(** The task [queueCommit] queues. *)
Definition the_commit_task : Task :=
  {| t_action := ACommit; t_once := Some "write memory fs to disk" |}.

(** A sub-queue after [push_to], when there is one of that name. *)
Definition enqueue (name : string) (t : Task) (qs : list (string * list Task))
    : list (string * list Task) :=
  default qs (push_to name t qs).




(** Neither the store nor the count of composition events changes. *)
Definition composition_unchanged (e e' : Env) : Prop :=
  composedStore e' = composedStore e
  /\ forall id,
       count_events (is_compose id) (trace e') = count_events (is_compose id) (trace e)
       /\ count_events (is_compose_of id) (trace e')
          = count_events (is_compose_of id) (trace e).


(** The listeners [start] leaves behind that forward a failure: the one
    on the run loop and, for a promise [p], the one on the environment. *)
Definition error_forwarder : Emitter.Listener LoopHandler :=
  {| Emitter.l_event := "error"; Emitter.l_once := false;
     Emitter.l_handler := LForwardError |}.

Definition end_forwarder : Emitter.Listener LoopHandler :=
  {| Emitter.l_event := "end"; Emitter.l_once := true;
     Emitter.l_handler := LForwardEnd |}.

Definition rejects_on_error (p : nat) : Emitter.Listener Handler :=
  {| Emitter.l_event := "error"; Emitter.l_once := false;
     Emitter.l_handler := HReject p |}.

Definition listens_for_errors (e : Env) : Prop :=
  exists p, In (rejects_on_error p) (listeners e).

(** The run loop forwards its errors to an environment that listens. *)
Definition wired (e : Env) : Prop :=
  In error_forwarder (loop_listeners (runLoop e)) /\ listens_for_errors e.

(** The events a listener of the run loop stands for. *)
Definition forwarded_events (h : LoopHandler) (args : list Value) : list Event :=
  match h with
  | LForwardError => [EvEmit "error" args; EvAdapterClose]
  | LForwardPaused => [EvEmit "paused" []]
  | LForwardEnd => [EvEmit "end" []]
  end.

(** The promise a handler settles. *)
Definition targets (p : nat) (h : Handler) : bool :=
  match h with
  | HReject q | HResolve q | HResolveVoid q => Nat.eqb q p
  | HGeneratorEmit _ _ => false
  end.

(** What a handler settles its promise with. *)
Definition handler_outcome (h : Handler) (args : list Value) : Promise :=
  match h with
  | HReject _ => PRejected (arg0 args)
  | HResolve _ => PResolved (arg0 args)
  | HResolveVoid _ => PResolved VUndefined
  | HGeneratorEmit _ _ => PPending
  end.

(** The listeners [start] registers on the environment for its promise. *)
Definition start_listeners (p : nat) : list (Emitter.Listener Handler) :=
  [ {| Emitter.l_event := "error"; Emitter.l_once := false;
       Emitter.l_handler := HReject p |};
    {| Emitter.l_event := "generator:reject"; Emitter.l_once := false;
       Emitter.l_handler := HReject p |};
    {| Emitter.l_event := "generator:resolve"; Emitter.l_once := false;
       Emitter.l_handler := HResolve p |};
    {| Emitter.l_event := "end"; Emitter.l_once := true;
       Emitter.l_handler := HResolveVoid p |} ].

(** No listener of the environment settles the promise [start] would
    create next. *)
Definition fresh_promise (e : Env) : Prop :=
  forall l, In l (listeners e) ->
    targets (length (promises e)) (Emitter.l_handler l) = false.

(** The promise [p] is what the events since the trace was [n] long make
    it, its listeners are those of [start], and they are registered as long
    as it is pending. *)
Definition promise_follows_trace (p n : nat) (e : Env) : Prop :=
  promises e !! p = Some (outcome_of (events_since n e))
  /\ n <= length (trace e)
  /\ (forall l, In l (listeners e) -> targets p (Emitter.l_handler l) = true ->
       In l (start_listeners p))
  /\ (outcome_of (events_since n e) = PPending ->
      forall l, In l (start_listeners p) -> In l (listeners e)).

(** The state [start] has prepared when it emits "run": the promise
    created, the options picked, the two tasks queued (their sub-queues
    existing) and the listeners registered. *)
Definition start_prepared (given : ConflicterOptions) (e : Env) : Env :=
  let p := length (promises e) in
  set_loop_listeners (Emitter.once "end" LForwardEnd)
    (set_listeners (Emitter.once "end" (HResolveVoid p))
       (set_loop_listeners (Emitter.on "paused" LForwardPaused)
          (set_loop_listeners (Emitter.on "error" LForwardError)
             (set_listeners (Emitter.on "generator:resolve" (HResolve p))
                (set_listeners (Emitter.on "generator:reject" (HReject p))
                   (set_listeners (Emitter.on "error" (HReject p))
                      (set_queues
                         (enqueue "install"
                            {| t_action := AInstall;
                               t_once := Some "package manager install" |})
                         (set_queues (enqueue "environment:conflicts" the_commit_task)
                            (set_conflicterOptions
                               (fun _ => Some (with_cwd (defaults (options e) given)))
                               (set_promises (fun ps => ps ++ [PPending]) e)))))))))).

(** While the scheduler runs, the listener of [start] for its end is
    registered; once it has ended, the environment has emitted "end". *)
Definition end_follows (n : nat) (e : Env) : Prop :=
  listens_for_errors e
  /\ n <= length (trace e)
  /\ match state (runLoop e) with
     | Running => In end_forwarder (loop_listeners (runLoop e))
     | Ended => In (EvEmit "end" []) (events_since n e)
     | Idle | Paused => True
     end.

(** The computation [c] takes every state to one that steps of [R] reach. *)
Definition makes (R : relation Env) {A} (c : M.t A) : Prop :=
  forall e, rtc R e (fst (c e)).

Definition generator_event (ev : Event) : Prop :=
  exists g event, ev = EvGenerator g event.

(** The composition events in the trace are those of the store: one global
    and one per-identifier event for each identifier composed, none for
    the others. *)
Definition stored (id : string) (e : Env) : nat :=
  match composedStore e !! id with
  | Some _ => 1
  | None => 0
  end.

Definition composed_once (e : Env) : Prop :=
  forall id,
    count_events (is_compose id) (trace e) = stored id e
    /\ count_events (is_compose_of id) (trace e) = stored id e.

End Environment.

(** ** A small run, for closed examples *)

Module Example.

Import JS Env Environment.

(** Sub-queues in the order of the phases. *)
Definition queues : list string :=
  ["environment:run"; "initializing"; "writing"; "environment:conflicts"; "install"; "end"].

(** A non-interactive world: identifiers parse to themselves, nothing is
    found on disk or installable, no resolution is recorded, and the
    adapter skips. *)
Definition world : World :=
  {| toNamespace := fun id => Some id;
     resolveModulePath := fun _ => None;
     yoResolve := fun _ => None;
     prompt := fun _ => SkipFile;
     installable := fun _ => None |}.

(** A generator with the phased contract: it writes a file in the
    writing phase and another one at the end, after the first commit. *)
Definition generator : Generator :=
  {| g_id := 1;
     g_identity := "foo:app";
     g_queueTasks :=
       Some [OpQueueTask "writing" [OpWrite "/out/file.txt" "x"] None None;
             OpQueueTask "end" [OpWrite "/out/late.txt" "y"] None None];
     g_run := [];
     g_result := VString "done";
     g_forwardErrorToEnvironment := false;
     g_options := no_options |}.

(** Another instance under the same identity. *)
Definition same_generator : Generator :=
  {| g_id := 2;
     g_identity := "foo:app";
     g_queueTasks := Some [];
     g_run := [];
     g_result := VUndefined;
     g_forwardErrorToEnvironment := false;
     g_options := no_options |}.

Definition other_generator : Generator :=
  {| g_id := 3;
     g_identity := "bar:app";
     g_queueTasks := None;
     g_run := [];
     g_result := VUndefined;
     g_forwardErrorToEnvironment := false;
     g_options := no_options |}.

Definition fresh : Env := new_environment queues no_options false.

Definition experimental_env : Env := new_environment queues no_options true.

(** Started, with a task that throws queued for the writing phase. *)
Definition failing : Env :=
  M.exec (queueTask "writing" (AScript [OpThrow (PlainError "boom")]) None None)
    (fst (start no_options fresh)).


End Example.

(** * Properties *)

(** ** Regular expressions: the default pattern *)

Section RegExpFacts.

Import RegExp.

Lemma append_cons (c : ascii) (s t : string) : String c s +:+ t = String c (s +:+ t).
Proof. reflexivity. Qed.

Lemma append_empty_l (s : string) : "" +:+ s = s.
Proof. reflexivity. Qed.

Lemma append_empty_r (s : string) : s +:+ "" = s.
Proof. induction s as [|c s IH]; [reflexivity|]. rewrite append_cons. by rewrite IH. Qed.

Lemma take_string_all (s : string) : take_string (String.length s) s = s.
Proof. induction s as [|c s IH]; [reflexivity|]. cbn. f_equal. exact IH. Qed.

Lemma clear_captures_none (lo : nat) (caps : Captures) : clear_captures lo 0 caps = caps.
Proof.
  unfold clear_captures. induction caps as [|[i s] caps IH]; [reflexivity|].
  simpl. rewrite IH. replace (lo + 0) with lo by lia.
  destruct (Nat.leb lo i) eqn:Hle; simpl; [|reflexivity].
  apply Nat.leb_le in Hle.
  destruct (Nat.ltb i lo) eqn:Hlt; [|reflexivity]. apply Nat.ltb_lt in Hlt. lia.
Qed.

Lemma not_colon_none_of (c : ascii) :
  negb (Ascii.eqb c ":") = true -> negb (mem_ascii c [":"%char]) = true.
Proof. simpl. by rewrite orb_false_r. Qed.

(** A greedy [[^:]*] takes a colon-free input to its end, when what follows
    the quantifier accepts the end of input. *)
Lemma star_none_of_colon (gi : nat) (k : Continuation) (caps : Captures)
    (res : string * Captures) (s : string) :
  Alias.no_colon s = true ->
  (forall b, k b "" caps = Some res) ->
  forall fuel b, String.length s <= fuel ->
  star_loop (run (NoneOf [":"%char]) gi) (clear_captures gi 0) k fuel b s caps = Some res.
Proof.
  intros Hs Hk. induction s as [|c s IH]; intros fuel b Hfuel.
  - destruct fuel; simpl; [apply Hk|]. rewrite Hk. reflexivity.
  - simpl in Hs. apply andb_prop in Hs as [Hc Hs].
    destruct fuel as [|fuel]; [simpl in Hfuel; lia|].
    cbn [star_loop run one_char]. rewrite clear_captures_none.
    rewrite (not_colon_none_of c Hc).
    rewrite IH; [| assumption | simpl in Hfuel; lia].
    replace (Nat.ltb (String.length s) (String.length (String c s))) with true
      by (symmetry; apply Nat.ltb_lt; simpl; lia).
    reflexivity.
Qed.

Lemma default_match_exec (s : string) :
  s <> "" -> Alias.no_colon s = true ->
  exec Alias.default_match s =
    Some {| m_before := ""; m_text := s; m_after := ""; m_caps := [(1, s)] |}.
Proof.
  intros Hne Hs. destruct s as [|c s]; [done|].
  unfold exec. assert (Hc := Hs). simpl in Hc. apply andb_prop in Hc as [Hc Hs'].
  assert (Hm : match_at Alias.default_match true (String c s) = Some ("", [(1, String c s)])).
  { unfold match_at, Alias.default_match. cbn [run ngroups one_char].
    rewrite (not_colon_none_of c Hc).
    rewrite (star_none_of_colon 2 _ [] ("", [(1, String c s)]) s); auto.
    intros b. cbn. by rewrite take_string_all. }
  destruct s as [|c' s]; simpl search; rewrite Hm; cbn;
    rewrite ?take_string_all; reflexivity.
Qed.

Lemma default_match_test (s : string) :
  s <> "" -> Alias.no_colon s = true -> test Alias.default_match s = true.
Proof.
  intros Hne Hs. unfold test. rewrite default_match_exec by assumption.
  apply bool_decide_eq_true. eauto.
Qed.

Lemma default_match_replace (s : string) :
  s <> "" -> Alias.no_colon s = true ->
  replace s Alias.default_match "$1:app" = s +:+ ":app".
Proof.
  intros Hne Hs. unfold replace. rewrite default_match_exec by assumption.
  cbn. rewrite append_empty_l, append_empty_r. reflexivity.
Qed.

End RegExpFacts.

(** ** Alias resolution *)

Section AliasProperties.

Import Alias.

Variable new_RegExp : string -> JS.Error + RegExp.t.

Lemma apply_rule_no_match (s : string) (r : AliasRule) :
  RegExp.test (match_ r) s = false -> apply_rule s r = s.
Proof. intros H. unfold apply_rule. by rewrite H. Qed.

Lemma fold_rules_newest_first (rules : list AliasRule) (s : string) :
  fold_left apply_rule (rev rules) s = resolve_newest_first rules s.
Proof.
  induction rules as [|r rules IH]; [reflexivity|].
  simpl. rewrite fold_left_app. simpl. by rewrite IH.
Qed.

Lemma resolve_newest_first_snoc (rules : list AliasRule) (r : AliasRule) (s : string) :
  resolve_newest_first (rules ++ [r]) s = resolve_newest_first rules (apply_rule s r).
Proof. induction rules as [|r' rules IH]; simpl; [reflexivity | by rewrite IH]. Qed.

Lemma resolve_newest_first_fixed (rules : list AliasRule) (s : string) :
  Forall (fun r => apply_rule s r = s) rules -> resolve_newest_first rules s = s.
Proof.
  induction 1 as [|r rules Hr _ IH]; simpl; [reflexivity|]. by rewrite IH.
Qed.

Lemma alias_getter (aliases : list AliasRule) (s : string) :
  alias new_RegExp aliases (MString s) None = Returned (resolve_newest_first aliases s).
Proof.
  unfold alias. rewrite andb_false_r. by rewrite fold_rules_newest_first.
Qed.

(** C5.  The getter [alias(s)] applies the rules newest first: its result
    is that of applying the rule added last to [s], the rule added before it
    to what that gives, and so on down to the rule added first; a rule whose
    pattern does not match leaves the string as it is; and a result that no
    rule matches resolves to itself. *)
Theorem alias_applies_rules_in_reverse_order (aliases : list AliasRule) (s : string) :
  alias new_RegExp aliases (MString s) None = Returned (resolve_newest_first aliases s)
  /\ (forall r : AliasRule,
        alias new_RegExp (aliases ++ [r]) (MString s) None
        = alias new_RegExp aliases (MString (apply_rule s r)) None)
  /\ (forall r : AliasRule, RegExp.test (match_ r) s = false -> apply_rule s r = s)
  /\ (forall resolved : string,
        alias new_RegExp aliases (MString s) None = Returned resolved ->
        Forall (fun r => RegExp.test (match_ r) resolved = false) aliases ->
        alias new_RegExp aliases (MString resolved) None = Returned resolved).
Proof.
  split; [apply alias_getter|]. split; [|split].
  - intros r. rewrite !alias_getter. by rewrite resolve_newest_first_snoc.
  - intros r. apply apply_rule_no_match.
  - intros resolved _ Hno. rewrite alias_getter. f_equal.
    apply resolve_newest_first_fixed.
    eapply Forall_impl; [exact Hno|]. intros r. apply apply_rule_no_match.
Qed.

Lemma apply_default_alias (s : string) :
  s <> "" -> no_colon s = true -> apply_rule s default_alias = s +:+ ":app".
Proof.
  intros Hne Hs. unfold apply_rule, default_alias. cbn [match_ value].
  rewrite default_match_test by assumption. cbn [negb].
  by apply default_match_replace.
Qed.

(** C7.  With the rule of the constructor registered first, a non-empty
    identifier without [:] that the rules registered later leave as it is
    resolves to the identifier followed by [:app]. *)
Theorem alias_default_appends_app (others : list AliasRule) (s : string) :
  s <> "" -> no_colon s = true ->
  Forall (fun r => apply_rule s r = s) others ->
  alias new_RegExp (default_alias :: others) (MString s) None = Returned (s +:+ ":app").
Proof.
  intros Hne Hs Hothers. rewrite alias_getter. cbn [resolve_newest_first].
  rewrite (resolve_newest_first_fixed _ _ Hothers).
  by rewrite apply_default_alias.
Qed.

(** C9, as amended.  Called as a getter with anything but a string,
    [alias] throws the [TypeError] "string is required"; it returns a
    resolved string for string arguments only. *)
Theorem alias_getter_requires_string (aliases : list AliasRule) (m : Matcher)
    (v : option string) :
  (is_string m = false -> truthy_matcher m && truthy_value v = false ->
   alias new_RegExp aliases m v = Threw (JS.TypeError "string is required"))
  /\ (forall resolved : string,
        alias new_RegExp aliases m v = Returned resolved -> is_string m = true).
Proof.
  split.
  - intros Hm Hgetter. unfold alias. rewrite Hgetter. by destruct m.
  - intros resolved. unfold alias.
    destruct (truthy_matcher m && truthy_value v).
    + destruct m; try destruct (new_RegExp _); discriminate.
    + destruct m; (reflexivity || discriminate).
Qed.

End AliasProperties.

(** The constructor's call [this.alias(/^([^:]+)$/, '$1:app')] on the empty
    table gives the initial table. *)
Example constructor_registers_default_alias :
  Alias.alias Alias.no_RegExp [] (Alias.MRegExp Alias.default_match) (Some "$1:app")
  = Alias.ReturnedThis Alias.initial_aliases.
Proof. reflexivity. Qed.

(** The example of the documentation of [alias]: with the three rules
    registered in that order, [foo] resolves to [generator-foo:all]. *)
Example alias_documentation_example :
  let any := RegExp.Seq RegExp.Bol
               (RegExp.Seq (RegExp.Group (RegExp.Plus
                  (RegExp.NoneOf [" "%char]))) RegExp.Eol) in
  Alias.alias Alias.no_RegExp
    [ {| Alias.match_ := any; Alias.value := "generator-$1" |};
      {| Alias.match_ := Alias.default_match; Alias.value := "$1:app" |};
      {| Alias.match_ := Alias.default_match; Alias.value := "$1:all" |} ]
    (Alias.MString "foo") None
  = Alias.Returned "generator-foo:all".
Proof. vm_compute. reflexivity. Qed.

Lemma alias_applies_rules_in_reverse_order_witness :
  let rules := Alias.initial_aliases in
  Alias.alias Alias.no_RegExp rules (Alias.MString "foo:app") None = Alias.Returned "foo:app"
  /\ Alias.alias Alias.no_RegExp rules (Alias.MString "foo") None = Alias.Returned "foo:app".
Proof.
  split.
  - refine (proj2 (proj2 (proj2
      (alias_applies_rules_in_reverse_order Alias.no_RegExp Alias.initial_aliases "foo")))
      "foo:app" _ _).
    + vm_compute. reflexivity.
    + repeat constructor.
  - vm_compute. reflexivity.
Defined.

Lemma alias_default_appends_app_witness :
  Alias.alias Alias.no_RegExp
    [Alias.default_alias;
     {| Alias.match_ := RegExp.Seq RegExp.Bol (RegExp.Seq (RegExp.Char "y") RegExp.Eol);
        Alias.value := "yeoman" |}]
    (Alias.MString "foo") None
  = Alias.Returned "foo:app".
Proof.
  apply (alias_default_appends_app Alias.no_RegExp _ "foo").
  - discriminate.
  - reflexivity.
  - repeat constructor.
Defined.

(** C9, as stated, fails: the getter does not let a namespace object
    through, it throws. *)
Lemma alias_namespace_object_throws :
  Alias.is_string (Alias.MNamespace "foo:app") = false
  /\ Alias.alias Alias.no_RegExp Alias.initial_aliases (Alias.MNamespace "foo:app") None
     = Alias.Threw (JS.TypeError "string is required").
Proof. split; reflexivity. Qed.

Lemma alias_getter_requires_string_witness :
  Alias.alias Alias.no_RegExp Alias.initial_aliases Alias.MUndefined (Some "x")
  = Alias.Threw (JS.TypeError "string is required").
Proof.
  apply (proj1 (alias_getter_requires_string Alias.no_RegExp Alias.initial_aliases
                  Alias.MUndefined (Some "x"))); reflexivity.
Defined.

(** ** Every call is a sequence of steps *)

Section Steps.

Import JS Env Environment.
Local Open Scope env_scope.

Variable R : relation Env.

Lemma makes_ret {A} (a : A) : makes R (M.ret a).
Proof. intros e. apply rtc_refl. Qed.

Lemma makes_throw {A} (err : Error) : makes R (@M.throw A err).
Proof. intros e. apply rtc_refl. Qed.

Lemma makes_gets {A} (f : Env -> A) : makes R (M.gets f).
Proof. intros e. apply rtc_refl. Qed.

Lemma makes_modify (f : Env -> Env) : (forall e, R e (f e)) -> makes R (M.modify f).
Proof. intros H e. apply rtc_once, H. Qed.

Lemma makes_bind {A B} (c : M.t A) (k : A -> M.t B) :
  makes R c -> (forall a, makes R (k a)) -> makes R (M.bind c k).
Proof.
  intros Hc Hk e. unfold M.bind. specialize (Hc e).
  destruct (c e) as [e' [err|a]]; simpl in *; [exact Hc|].
  etrans; [exact Hc | apply Hk].
Qed.

Lemma makes_try_catch (c : M.t unit) : makes R c -> makes R (M.try_catch c).
Proof. intros Hc e. apply Hc. Qed.

Lemma makes_for_each {A} (body : A -> M.t unit) (xs : list A) :
  (forall x, makes R (body x)) -> makes R (M.for_each body xs).
Proof.
  intros Hbody. induction xs as [|x xs IH]; simpl.
  - apply makes_ret.
  - apply makes_bind; [apply Hbody | intros _; exact IH].
Qed.

End Steps.

Section RunLoopSteps.

Import JS Env Environment.
Local Open Scope env_scope.

Lemma frame_step (f : Env -> Env) :
  (forall e, promises (f e) = promises e) -> (forall e, listeners (f e) = listeners e) ->
  (forall e, trace (f e) = trace e) -> (forall e, composedStore (f e) = composedStore e) ->
  (forall e, _rootGenerator (f e) = _rootGenerator e) ->
  (forall e, runLoop (f e) = runLoop e) ->
  makes step (M.modify f).
Proof.
  intros ? ? ? ? ? Hloop. apply makes_modify. intros e.
  apply step_frame; try done; rewrite Hloop; auto.
Qed.

Ltac frame := apply frame_step; intros; reflexivity.

Lemma emit_makes (event : string) (args : list Value) :
  In event run_events -> makes step (emit event args).
Proof. intros H e. apply rtc_once. by apply (step_emit event args e). Qed.

Lemma log_makes (ev : Event) : plain_event ev = true -> makes step (M.modify (log ev)).
Proof. intros H. apply makes_modify. intros e. by apply step_log. Qed.

Lemma runLoop_add_makes (name : string) (t : Task) (run : bool) :
  makes step (runLoop_add name t run).
Proof.
  intros e. unfold runLoop_add. destruct (push_to _ _ _) as [qs|]; simpl; [|apply rtc_refl].
  apply rtc_once. apply step_frame; try by destruct (_ && _).
  destruct run; [|by left]. cbn [andb].
  case_bool_decide as Hs; [right | by left]. done.
Qed.

Lemma queueTask_makes priority task once startQueue :
  makes step (queueTask priority task once startQueue).
Proof. apply runLoop_add_makes. Qed.

Lemma sharedFs_emit_change_makes : makes step sharedFs_emit_change.
Proof.
  intros e. unfold sharedFs_emit_change. apply makes_for_each. intros l.
  apply makes_bind; [frame|]. intros _. destruct (Emitter.l_handler l). apply queueTask_makes.
Qed.

Lemma write_makes path contents : makes step (write path contents).
Proof. apply makes_bind; [frame | intros _; apply sharedFs_emit_change_makes]. Qed.

Lemma generator_emit_error_makes g err : makes step (generator_emit_error g err).
Proof.
  intros e. unfold generator_emit_error.
  destruct (filter _ _) as [|g0 gs]; [apply rtc_refl|].
  apply (makes_for_each step _ (g0 :: gs)). intros _. apply emit_makes. unfold run_events. simpl. tauto.
Qed.

Lemma run_op_makes op : makes step (run_op op).
Proof.
  destruct op as [path contents|priority task once startQueue|g err|[] v|err]; simpl.
  - apply write_makes.
  - apply queueTask_makes.
  - apply generator_emit_error_makes.
  - apply emit_makes. unfold run_events. simpl. tauto.
  - apply emit_makes. unfold run_events. simpl. tauto.
  - apply makes_throw.
Qed.

Lemma run_script_makes ops : makes step (run_script ops).
Proof. apply makes_for_each, run_op_makes. Qed.

Lemma queueGenerator_runGenerator_makes g : makes step (queueGenerator_runGenerator g).
Proof.
  unfold queueGenerator_runGenerator. destruct (g_queueTasks g) as [script|].
  - apply makes_bind; [apply makes_modify; intros e; apply step_listen|]. intros _.
    apply makes_bind; [apply makes_modify; intros e; apply step_listen|]. intros _.
    apply run_script_makes.
  - apply makes_bind; [|intros _; apply run_script_makes].
    destruct (negb _); [frame | apply makes_ret].
Qed.

Variable w : World.

Lemma conflicterTransform_makes opts f : makes step (conflicterTransform w opts f).
Proof.
  unfold conflicterTransform. destruct (f_conflicter f) as [[]|]; try apply makes_ret.
  apply makes_bind; [apply makes_gets|]. intros [].
  - repeat case_bool_decide; try apply makes_ret.
    apply makes_bind; [by apply log_makes | intros _; apply makes_ret].
  - apply makes_ret.
Qed.

Lemma commitTransform_makes f d : makes step (commitTransform f d).
Proof.
  destruct d; simpl.
  - apply makes_bind; [frame|]. intros _.
    apply makes_bind; [by apply log_makes|]. intros _. frame.
  - frame.
  - apply makes_throw.
Qed.

Lemma commitSharedFs_makes : makes step (commitSharedFs w).
Proof.
  unfold commitSharedFs. apply makes_bind; [apply makes_gets|]. intros opts.
  apply makes_bind; [apply makes_gets|]. intros pending.
  apply makes_for_each. intros f.
  apply makes_bind; [apply conflicterTransform_makes | intros d; apply commitTransform_makes].
Qed.

Lemma commit_task_makes : makes step (commit_task w).
Proof.
  unfold commit_task. apply makes_bind; [apply makes_gets|]. intros [|body|v].
  - apply makes_bind; [apply commitSharedFs_makes | intros _; frame].
  - apply makes_bind; [apply run_script_makes | intros _; frame].
  - apply makes_ret.
Qed.

Lemma install_task_makes : makes step install_task.
Proof.
  unfold install_task. apply makes_bind; [apply makes_gets|].
  intros []; try apply makes_ret; by apply log_makes.
Qed.

Lemma run_action_makes a : makes step (run_action w a).
Proof.
  destruct a; simpl.
  - apply queueGenerator_runGenerator_makes.
  - apply commit_task_makes.
  - apply install_task_makes.
  - apply run_script_makes.
Qed.

Lemma loop_call_makes h args : makes step (loop_call h args).
Proof.
  destruct h; simpl.
  - apply makes_bind; [apply emit_makes; unfold run_events; simpl; tauto|].
    intros _. by apply log_makes.
  - apply emit_makes; unfold run_events; simpl; tauto.
  - apply emit_makes; unfold run_events; simpl; tauto.
Qed.

Lemma steps_turn_steps e e' : rtc step e e' -> rtc turn_step e e'.
Proof. apply rtc_subrel. intros x y. apply turn_step_step. Qed.

Lemma makes_turn_steps {A} (c : M.t A) : makes step c -> makes turn_step c.
Proof. intros H e. apply steps_turn_steps, H. Qed.

Lemma runLoop_emit_makes event args : makes turn_step (runLoop_emit event args).
Proof.
  intros e. unfold runLoop_emit. destruct (Emitter.listeners _ _) as [|l ls] eqn:Hls.
  - destruct (String.eqb _ _); apply rtc_refl.
  - apply (makes_for_each turn_step _ (l :: ls)). intros l'.
    apply makes_bind; [|intros _; apply makes_turn_steps, loop_call_makes].
    apply makes_modify. intros e0. apply turn_step_call.
Qed.

Lemma stop_makes err : makes turn_step (stop err).
Proof.
  unfold stop. apply makes_bind.
  { apply makes_modify. intros e. apply turn_step_state. }
  intros _.
  apply makes_bind; [apply runLoop_emit_makes | intros _; apply runLoop_emit_makes].
Qed.

Lemma uncaught_steps (c : M.t unit) (e : Env) :
  makes turn_step c -> rtc turn_step e (uncaught c e).
Proof.
  intros Hc. unfold uncaught. specialize (Hc e). destruct (c e) as [e' [err|[]]]; simpl in *.
  - etrans; [exact Hc|]. apply rtc_once, turn_step_step. by apply step_log.
  - exact Hc.
Qed.

Lemma set_queues_step qs e : step e (set_queues (fun _ => qs) e).
Proof. apply step_frame; auto. Qed.

(** A turn of the run loop is a sequence of steps. *)
Lemma loop_step_steps (e : Env) : rtc turn_step e (loop_step w e).
Proof.
  unfold loop_step. destruct (state (runLoop e)); try apply rtc_refl.
  destruct (next_task _) as [[t qs]|].
  - unfold wrapped.
    pose proof (run_action_makes (t_action t) (set_queues (fun _ => qs) e)) as Hrun.
    apply steps_turn_steps in Hrun.
    destruct (run_action w (t_action t) _) as [e' [err|[]]]; simpl in *.
    + apply (rtc_l _ _ (set_queues (fun _ => qs) e));
        [apply turn_step_step, set_queues_step|].
      etrans; [exact Hrun|]. apply uncaught_steps, stop_makes.
    + apply (rtc_l _ _ (set_queues (fun _ => qs) e));
        [apply turn_step_step, set_queues_step | exact Hrun].
  - apply (rtc_l _ _ (set_state Ended e)); [apply turn_step_state|].
    apply uncaught_steps, runLoop_emit_makes.
Qed.

Lemma run_loop_steps (turns : nat) (e : Env) : rtc turn_step e (run_loop w turns e).
Proof.
  revert e. induction turns as [|turns IH]; intros e; simpl; [apply rtc_refl|].
  etrans; [apply loop_step_steps | apply IH].
Qed.

End RunLoopSteps.

(** ** What [emit] changes *)

Section Emit.

Import JS Env Environment.
Local Open Scope env_scope.

(** [emit] logs, calls listeners and drops [once] listeners; a property of
    the state that none of the three disturbs survives it. *)
Lemma emit_preserves (P : Env -> Prop) (event : string) (args : list Value) (e : Env) :
  (forall ev e, P e -> P (log ev e)) ->
  (forall l e, Emitter.l_event l = event -> P e ->
     P (set_listeners (Emitter.before_call l) e)) ->
  (forall p outcome e, P e -> P (settle p outcome e)) ->
  P e -> P (M.exec (emit event args) e).
Proof.
  intros Hlog Hlisten Hsettle He. unfold M.exec, emit.
  assert (Hfold : forall (ls : list (Emitter.Listener Handler)) e0,
            Forall (fun l => Emitter.l_event l = event) ls -> P e0 ->
            P (fold_left (fun e l => call (Emitter.l_handler l) args
                                       (set_listeners (Emitter.before_call l) e)) ls e0)).
  { intros ls. induction ls as [|l ls IH]; intros e0 Hls He0; simpl; [exact He0|].
    apply Forall_cons in Hls as [Hl Hls].
    apply IH; [exact Hls|]. destruct (Emitter.l_handler l); simpl; auto. }
  destruct (Emitter.listeners _ _) as [|l ls] eqn:Hsnap.
  - destruct (String.eqb event "error"); simpl; auto.
  - cbn [fst]. apply (Hfold (l :: ls)); [|auto].
    rewrite <- Hsnap. apply Forall_forall. intros l0 Hl0.
    by apply list_elem_of_filter in Hl0 as [Hl0 _].
Qed.

Lemma emit_composedStore event args e :
  composedStore (M.exec (emit event args) e) = composedStore e.
Proof. by apply (emit_preserves (fun e' => composedStore e' = composedStore e)). Qed.

Lemma emit_rootGenerator event args e :
  _rootGenerator (M.exec (emit event args) e) = _rootGenerator e.
Proof. by apply (emit_preserves (fun e' => _rootGenerator e' = _rootGenerator e)). Qed.

Lemma emit_runLoop event args e : runLoop (M.exec (emit event args) e) = runLoop e.
Proof. by apply (emit_preserves (fun e' => runLoop e' = runLoop e)). Qed.

Lemma emit_sharedFs event args e : sharedFs (M.exec (emit event args) e) = sharedFs e.
Proof. by apply (emit_preserves (fun e' => sharedFs e' = sharedFs e)). Qed.

(** The trace after [emit]: the event, then what the listeners that
    forward to generators add. *)
Lemma emit_trace event args e :
  exists forwarded_events,
    trace (M.exec (emit event args) e) = trace e ++ EvEmit event args :: forwarded_events
    /\ Forall generator_event forwarded_events.
Proof.
  unfold M.exec, emit.
  assert (Hfold : forall (ls : list (Emitter.Listener Handler)) e0,
            exists evs,
              trace (fold_left (fun e l => call (Emitter.l_handler l) args
                                   (set_listeners (Emitter.before_call l) e)) ls e0)
              = trace e0 ++ evs /\ Forall generator_event evs).
  { clear. intros ls. induction ls as [|l ls IH]; intros e0; simpl.
    - exists []. by rewrite app_nil_r.
    - destruct (IH (call (Emitter.l_handler l) args
                      (set_listeners (Emitter.before_call l) e0))) as (evs & Htr & Hevs).
      rewrite Htr. destruct (Emitter.l_handler l) as [p|p|p|g ev]; simpl; eauto.
      exists (EvGenerator g ev :: evs). rewrite <- app_assoc. split; [done|].
      constructor; [by exists g, ev | done]. }
  destruct (Emitter.listeners _ _) as [|l ls].
  - exists []. destruct (String.eqb event "error"); simpl; auto.
  - destruct (Hfold (l :: ls) (log (EvEmit event args) e)) as (evs & Htr & Hevs).
    exists evs. cbn [fst]. rewrite Htr. simpl. rewrite <- app_assoc. auto.
Qed.

Lemma count_events_app p xs ys :
  count_events p (xs ++ ys) = count_events p xs + count_events p ys.
Proof. unfold count_events. by rewrite List.filter_app, length_app. Qed.

Lemma count_generator_events p evs :
  (forall g event, p (EvGenerator g event) = false) ->
  Forall generator_event evs -> count_events p evs = 0.
Proof.
  intros Hp. induction 1 as [|ev evs (g & event & ->) _ IH]; [reflexivity|].
  unfold count_events in *. simpl. by rewrite Hp.
Qed.

(** How often [emit] adds an event that [p] counts, when [p] counts no
    event of a generator. *)
Lemma emit_count p event args e :
  (forall g event, p (EvGenerator g event) = false) ->
  count_events p (trace (M.exec (emit event args) e))
  = count_events p (trace e) + (if p (EvEmit event args) then 1 else 0).
Proof.
  intros Hp. destruct (emit_trace event args e) as (evs & -> & Hevs).
  rewrite count_events_app. f_equal.
  change (EvEmit event args :: evs) with ([EvEmit event args] ++ evs).
  rewrite count_events_app, (count_generator_events p evs Hp Hevs).
  unfold count_events. simpl. destruct (p _); reflexivity.
Qed.

End Emit.

(** ** Calls as sequences of steps *)

Section CallSteps.

Import JS Env Environment.
Local Open Scope env_scope.

Lemma emit_returns event args e :
  String.eqb event "error" = false ->
  emit event args e = (M.exec (emit event args) e, inr tt).
Proof.
  intros Hev. unfold M.exec, emit. rewrite Hev.
  by destruct (Emitter.listeners _ _).
Qed.

(** [queueGenerator] of a generator whose identifier is in the store. *)
Lemma queueGenerator_stored g schedule e stored :
  composedStore e !! g_identity g = Some stored ->
  queueGenerator g schedule e = (e, inr stored).
Proof.
  intros H. unfold queueGenerator, M.bind, addGenerator. by rewrite H.
Qed.

(** [queueGenerator] of a generator whose identifier is not in the store. *)
Lemma queueGenerator_added g schedule e :
  composedStore e !! g_identity g = None ->
  queueGenerator g schedule e
  = ((if schedule then queueTask "environment:run" (ARunGenerator g) None None
      else queueGenerator_runGenerator g);; M.ret g) (compose g e).
Proof.
  intros H. unfold queueGenerator, addGenerator, compose.
  unfold M.bind at 1. rewrite H. cbn [added negb identifier generator].
  unfold M.bind at 1. rewrite emit_returns by reflexivity.
  unfold M.bind at 1. rewrite emit_returns by reflexivity.
  reflexivity.
Qed.

Lemma steps_call_steps e e' : rtc turn_step e e' -> rtc call_step e e'.
Proof. apply rtc_subrel. intros x y. apply call_step_step. Qed.

Lemma makes_call_steps {A} (c : M.t A) : makes step c -> makes call_step c.
Proof. intros H e. apply steps_call_steps, steps_turn_steps, H. Qed.

Lemma frame_call_step e e' :
  promises e' = promises e -> listeners e' = listeners e -> trace e' = trace e ->
  composedStore e' = composedStore e -> _rootGenerator e' = _rootGenerator e ->
  runLoop e' = runLoop e -> call_step e e'.
Proof.
  intros ? ? ? ? ? Hloop. apply call_step_step, turn_step_step, step_frame; try done;
    rewrite Hloop; auto.
Qed.

Lemma queueGenerator_makes g schedule : makes call_step (queueGenerator g schedule).
Proof.
  intros e. destruct (composedStore e !! g_identity g) as [stored|] eqn:H.
  - rewrite (queueGenerator_stored _ _ _ _ H). apply rtc_refl.
  - rewrite (queueGenerator_added _ _ _ H).
    apply (rtc_l _ _ (compose g e)); [by apply call_step_compose|].
    apply makes_bind; [|intros _; apply makes_ret].
    apply makes_call_steps.
    destruct schedule; [apply queueTask_makes | apply queueGenerator_runGenerator_makes].
Qed.

Lemma listen_makes (f : list (Emitter.Listener Handler) -> list (Emitter.Listener Handler)) :
  (exists l, forall ls, f ls = ls ++ [l]) -> makes call_step (M.modify (set_listeners f)).
Proof.
  intros [l Hf]. apply makes_modify. intros e.
  replace (set_listeners f e) with (set_listeners (fun ls => ls ++ [l]) e).
  - apply call_step_listen.
  - unfold set_listeners. by rewrite Hf.
Qed.

Lemma loop_listen_makes
    (f : list (Emitter.Listener LoopHandler) -> list (Emitter.Listener LoopHandler)) :
  (exists l, forall ls, f ls = ls ++ [l]) -> makes call_step (M.modify (set_loop_listeners f)).
Proof.
  intros [l Hf]. apply makes_modify. intros e.
  replace (set_loop_listeners f e) with (set_loop_listeners (fun ls => ls ++ [l]) e).
  - apply call_step_loop_listen.
  - unfold set_loop_listeners, set_runLoop. by rewrite Hf.
Qed.

Lemma start_executor_makes p given : makes call_step (start_executor p given).
Proof.
  unfold start_executor.
  repeat (apply makes_bind; [|intros _]).
  - apply makes_modify. intros e. by apply frame_call_step.
  - apply makes_call_steps, queueTask_makes.
  - apply makes_call_steps, queueTask_makes.
  - apply listen_makes. by eexists.
  - apply listen_makes. by eexists.
  - apply listen_makes. by eexists.
  - apply loop_listen_makes. by eexists.
  - apply loop_listen_makes. by eexists.
  - apply listen_makes. by eexists.
  - apply loop_listen_makes. by eexists.
  - apply makes_call_steps, emit_makes. unfold run_events. simpl. tauto.
  - apply makes_modify. intros e. unfold runLoop_start.
    destruct (state (runLoop e));
      first [apply call_step_step, turn_step_state | by apply frame_call_step].
Qed.

Lemma start_steps given e : rtc call_step e (fst (start given e)).
Proof.
  unfold start.
  apply (rtc_l _ _ (set_promises (fun ps => ps ++ [PPending]) e));
    [apply call_step_promise|].
  pose proof (start_executor_makes (length (promises e)) given
                (set_promises (fun ps => ps ++ [PPending]) e)) as H.
  destruct (start_executor _ _ _) as [e' [err|[]]]; simpl in *; [|exact H].
  etrans; [exact H|]. apply rtc_once, call_step_settle.
Qed.

Lemma runGenerator_makes g : makes call_step (runGenerator g).
Proof.
  unfold runGenerator. apply makes_bind; [apply queueGenerator_makes|]. intros g'.
  apply makes_bind.
  { apply makes_modify. intros e. by apply frame_call_step. }
  intros _. apply makes_bind.
  { apply makes_modify. intros e. apply call_step_root. }
  intros _ e. pose proof (start_steps (g_options g') e) as H.
  by destruct (start (g_options g') e).
Qed.

Variable w : World.

Lemma get_body_makes name : makes call_step (get_body w name).
Proof.
  unfold get_body. destruct (String.eqb name ""); [apply makes_ret|].
  destruct (toNamespace w name); [apply makes_gets|].
  apply makes_bind; [apply makes_gets|]. intros [g|]; [apply makes_ret|].
  destruct (resolveModulePath w name) as [[namespace g]|]; [|apply makes_ret].
  apply makes_bind; [|intros _; apply makes_gets].
  apply makes_modify. intros e. by apply frame_call_step.
Qed.

Lemma get_steps name e : rtc call_step e (fst (get w name e)).
Proof.
  unfold get. pose proof (get_body_makes name e) as H.
  by destruct (get_body w name e).
Qed.

Lemma create_makes name args opts : makes call_step (create w name args opts).
Proof.
  intros e. unfold create. pose proof (get_steps name e) as H.
  destruct (get w name e) as [e' maybeGenerator]. simpl in H.
  etrans; [exact H|]. cbn [as_value truthy negb].
  apply makes_bind; [apply makes_ret|]. intros [outcome].
  apply makes_bind; [intros e0; apply rtc_refl|].
  intros [g|]; [apply makes_ret | apply makes_throw].
Qed.

(** [run] never takes the branch that calls [prepareEnvironment]: the
    guard negates a promise. *)
Lemma run_makes args opts help : makes call_step (run w args opts help).
Proof.
  unfold run. destruct args as [|name args]; [apply makes_throw|].
  destruct name as [|c name]; [apply makes_throw|].
  assert (makes call_step
            (g <- create w (String c name) args opts;;
             if help then M.modify (log (EvHelp (g_id g)));; M.ret None
             else p <- runGenerator g;; M.ret (Some p))) as Hrun.
  { apply makes_bind; [apply create_makes|]. intros g.
    destruct help.
    - apply makes_bind; [|intros _; apply makes_ret].
      apply makes_call_steps. by apply log_makes.
    - apply makes_bind; [apply runGenerator_makes | intros p; apply makes_ret]. }
  intros e. destruct (experimental e); [|apply Hrun].
  pose proof (get_steps (String c name) e) as H.
  destruct (get w (String c name) e) as [e' found]. simpl in H.
  cbn [as_value truthy negb].
  etrans; [exact H | apply Hrun].
Qed.

Lemma perform_steps c e : rtc call_step e (perform w c e).
Proof.
  destruct c; simpl.
  - apply queueGenerator_makes.
  - apply runGenerator_makes.
  - apply start_steps.
  - apply run_makes.
  - apply makes_call_steps, queueTask_makes.
  - apply steps_call_steps, loop_step_steps.
Qed.

Lemma perform_all_steps calls e : rtc call_step e (perform_all w calls e).
Proof.
  revert e. induction calls as [|c calls IH]; intros e; simpl; [apply rtc_refl|].
  etrans; [apply perform_steps | apply IH].
Qed.

(** A property of the state that every step of a call keeps holds after
    any sequence of calls. *)
Lemma perform_all_invariant (P : Env -> Prop) calls e :
  (forall e e', call_step e e' -> P e -> P e') -> P e -> P (perform_all w calls e).
Proof.
  intros Hstep He. induction (perform_all_steps calls e) as [|x y z Hxy _ IH]; eauto.
Qed.

End CallSteps.

(** ** The root generator *)

Section RootGenerator.

Import JS Env Environment.
Local Open Scope env_scope.

Lemma step_rootGenerator e e' : step e e' -> _rootGenerator e' = _rootGenerator e.
Proof.
  destruct 1 as [e e' _ _ _ _ H _ _|ev e _|event g event' e|event args e _]; try done.
  apply emit_rootGenerator.
Qed.

Lemma turn_step_rootGenerator e e' :
  turn_step e e' -> _rootGenerator e' = _rootGenerator e.
Proof. destruct 1 as [e e' H|s e|l e]; [by apply step_rootGenerator|done..]. Qed.

Lemma steps_rootGenerator e e' : rtc step e e' -> _rootGenerator e' = _rootGenerator e.
Proof.
  induction 1 as [|x y z Hxy _ IH]; [done|]. by rewrite IH, (step_rootGenerator x y).
Qed.

Lemma compose_rootGenerator g e : _rootGenerator (compose g e) = _rootGenerator e.
Proof. unfold compose. by rewrite !emit_rootGenerator. Qed.

(** No step of a call replaces a root generator. *)
Lemma call_step_keeps_root e e' root :
  call_step e e' -> rootGenerator e = Some root -> rootGenerator e' = Some root.
Proof.
  unfold rootGenerator.
  destruct 1 as [e e' H|l e|g e _|e|p outcome e|l e|g e]; intros Hroot; try done.
  - by rewrite (turn_step_rootGenerator _ _ H).
  - by rewrite compose_rootGenerator.
  - simpl. by rewrite Hroot.
Qed.

(** What [queueGenerator] returns and leaves as root when it returns. *)
Lemma queueGenerator_returns g schedule e e' g' :
  queueGenerator g schedule e = (e', inr g') ->
  g' = default g (composedStore e !! g_identity g)
  /\ _rootGenerator e' = _rootGenerator e.
Proof.
  destruct (composedStore e !! g_identity g) as [stored|] eqn:H.
  - rewrite (queueGenerator_stored _ _ _ _ H). by intros [= <- <-].
  - rewrite (queueGenerator_added _ _ _ H). unfold M.bind.
    set (c := if schedule then _ else _).
    assert (Hc : makes step c).
    { subst c. destruct schedule;
        [apply queueTask_makes | apply queueGenerator_runGenerator_makes]. }
    specialize (Hc (compose g e)).
    destruct (c (compose g e)) as [e0 [err|[]]]; [discriminate|].
    intros [= <- <-]. split; [done|].
    simpl in Hc. by rewrite (steps_rootGenerator _ _ Hc), compose_rootGenerator.
Qed.

Variable w : World.

(** C10.  When the first [runGenerator] call on an environment returns,
    [rootGenerator()] gives the instance that call ran (the generator
    passed, or the instance already composed under its identity), and it
    gives the same one after any further calls: queueing or running other
    generators, starting, running by name, queueing tasks, turns of the
    run loop. *)
Theorem rootGenerator_is_first_run (g : Generator) (e e1 : Env) (p : nat)
    (calls : list Call) :
  rootGenerator e = None ->
  runGenerator g e = (e1, inr p) ->
  rootGenerator (perform_all w calls e1)
  = Some (default g (composedStore e !! g_identity g)).
Proof.
  intros Hroot Hrun.
  apply (perform_all_invariant w (fun e' => rootGenerator e' = Some _));
    [intros x y Hxy; by apply call_step_keeps_root|].
  revert Hrun. unfold runGenerator. unfold M.bind at 1.
  destruct (queueGenerator g false e) as [e' [err|g']] eqn:Hq; [discriminate|].
  destruct (queueGenerator_returns _ _ _ _ _ Hq) as [-> Hroot'].
  unfold M.bind, M.modify.
  set (e2 := set_rootGenerator _ _).
  pose proof (start_steps (g_options (default g (composedStore e !! g_identity g))) e2) as Hs.
  destruct (start _ e2) as [e3 p']. intros [= <- _]. simpl in Hs.
  assert (H2 : rootGenerator e2 = Some (default g (composedStore e !! g_identity g))).
  { subst e2. unfold rootGenerator in *. simpl. by rewrite Hroot', Hroot. }
  clear -Hs H2. induction Hs as [|x y z Hxy _ IH]; [done|].
  apply IH. by apply (call_step_keeps_root x y).
Qed.

End RootGenerator.

(** ** Composition events *)

Section Composition.

Import JS Env Environment.
Local Open Scope env_scope.

Lemma count_events_log p ev e :
  count_events p (trace (log ev e)) = count_events p (trace e) + (if p ev then 1 else 0).
Proof.
  unfold log. simpl. rewrite count_events_app. unfold count_events. simpl.
  by destruct (p ev).
Qed.

Lemma run_event_not_compose event args id :
  In event run_events ->
  is_compose id (EvEmit event args) = false /\ is_compose_of id (EvEmit event args) = false.
Proof.
  unfold run_events. simpl.
  intros [<-|[<-|[<-|[<-|[<-|[<-|[]]]]]]]; split; reflexivity.
Qed.

Lemma step_composition e e' : step e e' -> composition_unchanged e e'.
Proof.
  destruct 1 as [e e' _ _ Htr Hcs _ _ _|ev e Hev|event g event' e|event args e Hev].
  - split; [done|]. intros id. by rewrite Htr.
  - split; [done|]. intros id. rewrite !count_events_log.
    destruct ev; try discriminate; simpl; split; lia.
  - split; [done|]. intros id. done.
  - split; [apply emit_composedStore|]. intros id.
    destruct (run_event_not_compose event args id Hev) as [H1 H2].
    rewrite !emit_count by done. rewrite H1, H2. lia.
Qed.

Lemma turn_step_composition e e' : turn_step e e' -> composition_unchanged e e'.
Proof. destruct 1 as [e e' H|s e|l e]; [by apply step_composition|by split..]. Qed.

Lemma steps_composition e e' : rtc step e e' -> composition_unchanged e e'.
Proof.
  induction 1 as [e|x y z Hxy _ [IHs IHc]]; [by split|].
  destruct (step_composition _ _ Hxy) as [Hs Hc].
  split; [congruence|]. intros id. destruct (IHc id), (Hc id). split; congruence.
Qed.

(** What composing a generator adds. *)
Lemma compose_effect g e :
  composedStore (compose g e) = <[g_identity g := g]> (composedStore e)
  /\ forall id,
       count_events (is_compose id) (trace (compose g e))
       = count_events (is_compose id) (trace e)
         + (if String.eqb (g_identity g) id then 1 else 0)
       /\ count_events (is_compose_of id) (trace (compose g e))
          = count_events (is_compose_of id) (trace e)
            + (if String.eqb (g_identity g) id then 1 else 0).
Proof.
  unfold compose. split.
  - by rewrite !emit_composedStore.
  - intros id. rewrite !emit_count by done.
    change (is_compose id (EvEmit "compose" [VString (g_identity g); VObject (g_id g)]))
      with (String.eqb (g_identity g) id).
    change (is_compose_of id (EvEmit ("compose:" +:+ g_identity g) [VObject (g_id g)]))
      with (String.eqb (g_identity g) id).
    change (is_compose id (EvEmit ("compose:" +:+ g_identity g) [VObject (g_id g)]))
      with false.
    change (is_compose_of id (EvEmit "compose" [VString (g_identity g); VObject (g_id g)]))
      with false.
    cbn [trace set_composedStore]. split; lia.
Qed.

Lemma stored_insert g e e' id :
  composedStore e !! g_identity g = None ->
  composedStore e' = <[g_identity g := g]> (composedStore e) ->
  stored id e' = stored id e + (if String.eqb (g_identity g) id then 1 else 0).
Proof.
  intros Hnone Hcs. unfold stored. rewrite Hcs.
  destruct (String.eqb_spec (g_identity g) id) as [<-|Hne].
  - by rewrite lookup_insert_eq, Hnone.
  - rewrite lookup_insert_ne by done. destruct (_ !! id); lia.
Qed.

Lemma call_step_composed_once e e' : call_step e e' -> composed_once e -> composed_once e'.
Proof.
  destruct 1 as [e e' H|l e|g e Hnone|e|p outcome e|l e|g e]; intros He id;
    specialize (He id); try done.
  - destruct (turn_step_composition _ _ H) as [Hcs Hc]. destruct (Hc id) as [-> ->].
    unfold stored in *. by rewrite Hcs.
  - destruct (compose_effect g e) as [Hcs Hc]. destruct (Hc id) as [-> ->].
    rewrite (stored_insert g e (compose g e) id Hnone Hcs).
    destruct He as [-> ->]. done.
Qed.

Lemma new_environment_composed_once defaultQueues opts experimental_ :
  composed_once (new_environment defaultQueues opts experimental_).
Proof. intros id. by split. Qed.

Variable w : World.

(** C2.  In any state a run can reach from a new environment:
    queueing a generator whose identifier is composed changes nothing and
    returns the stored instance; queueing one whose identifier is not
    composed stores it and emits the global and the per-identifier
    composition event once each, and no composition event of another
    identifier; so that at any time each composed identifier has had
    exactly one event of each kind and the others none. *)
Theorem queueGenerator_composes_once (defaultQueues : list string)
    (opts : ConflicterOptions) (experimental_ : bool) (calls : list Call)
    (g : Generator) (schedule : bool) :
  let e := perform_all w calls (new_environment defaultQueues opts experimental_) in
  let e' := M.exec (queueGenerator g schedule) e in
  composed_once e
  /\ (forall first,
        composedStore e !! g_identity g = Some first ->
        queueGenerator g schedule e = (e, inr first))
  /\ (composedStore e !! g_identity g = None ->
      composedStore e' !! g_identity g = Some g
      /\ forall id,
           count_events (is_compose id) (trace e')
           = count_events (is_compose id) (trace e)
             + (if String.eqb (g_identity g) id then 1 else 0)
           /\ count_events (is_compose_of id) (trace e')
              = count_events (is_compose_of id) (trace e)
                + (if String.eqb (g_identity g) id then 1 else 0))
  /\ composed_once e'.
Proof.
  intros e e'.
  assert (He : composed_once e).
  { apply perform_all_invariant; [apply call_step_composed_once|].
    apply new_environment_composed_once. }
  split; [exact He|]. split; [|split].
  - intros first. apply queueGenerator_stored.
  - intros Hnone. subst e'. unfold M.exec.
    rewrite (queueGenerator_added _ _ _ Hnone).
    set (c := if schedule then _ else _).
    assert (Hc : makes step c).
    { subst c. destruct schedule;
        [apply queueTask_makes | apply queueGenerator_runGenerator_makes]. }
    specialize (Hc (compose g e)). unfold M.bind.
    destruct (c (compose g e)) as [e0 [err|[]]]; simpl in *;
      destruct (steps_composition _ _ Hc) as [Hcs Hcount];
      destruct (compose_effect g e) as [Hcs' Hcount'];
      (split; [by rewrite Hcs, Hcs', lookup_insert_eq|]);
      intros id; destruct (Hcount id) as [-> ->]; apply Hcount'.
  - subst e'. unfold M.exec.
    pose proof (queueGenerator_makes g schedule e) as Hsteps.
    induction Hsteps as [|x y z Hxy _ IH]; [done|].
    apply IH. by apply (call_step_composed_once x y).
Qed.

End Composition.

(** ** [run] and the installer *)

Section RunByName.

Import JS Env Environment.
Local Open Scope env_scope.

Lemma call_step_no_prepareEnvironment e e' :
  call_step e e' ->
  count_events is_prepareEnvironment (trace e')
  = count_events is_prepareEnvironment (trace e).
Proof.
  destruct 1 as [e e' H|l e|g e Hnone|e|p outcome e|l e|g e]; try done.
  - destruct H as [e e' H|s e|l e]; [|done..].
    destruct H as [e e' _ _ Htr _ _ _ _|ev e Hev|event g event' e|event args e Hev].
    + by rewrite Htr.
    + rewrite count_events_log. destruct ev; try discriminate; simpl; lia.
    + done.
    + rewrite emit_count by done. simpl. lia.
  - unfold compose. rewrite !emit_count by done. simpl. lia.
Qed.

Variable w : World.

(** The guard of the install branch of [run] is false in every state:
    [this.get(name)] is a promise, and [!promise] is [false]. *)
Lemma run_install_guard (name : string) (e : Env) :
  negb (truthy (as_value (snd (get w name e)))) = false.
Proof. done. Qed.

(** C6, what the code does.  [run] never calls [prepareEnvironment],
    experimental mode or not, generator found or not. *)
Theorem run_never_calls_prepareEnvironment (args : list string)
    (opts : ConflicterOptions) (help : bool) (e : Env) :
  count_events is_prepareEnvironment (trace (M.exec (run w args opts help) e))
  = count_events is_prepareEnvironment (trace e).
Proof.
  unfold M.exec. induction (run_makes w args opts help e) as [|x y z Hxy _ IH]; [done|].
  by rewrite IH, (call_step_no_prepareEnvironment x y).
Qed.

End RunByName.

(** ** The commit pipeline *)

Section CommitPipeline.

Import JS Env Environment.
Local Open Scope env_scope.

Variable w : World.












End CommitPipeline.

(** ** Re-queueing the commit *)

Section Requeue.

Import JS Env Environment.
Local Open Scope env_scope.

(** *** Listeners used up by a notification *)

Section UsedUp.

Context {H : Type} `{EqDecision H}.
Implicit Types (l : Emitter.Listener H) (ls cur : list (Emitter.Listener H)).



End UsedUp.

(** *** Queueing a task twice under a once-key *)




Lemma push_to_has_queue name t e :
  has_queue name e = true ->
  push_to name t (queues (runLoop e)) = Some (enqueue name t (queues (runLoop e))).
Proof.
  unfold has_queue, enqueue. induction (queues (runLoop e)) as [|[n ts] qs IH]; [done|].
  simpl. destruct (String.eqb n name); [done|]. simpl. intros Hqs.
  by rewrite (IH Hqs).
Qed.


(** [queueTask] on a sub-queue there is, without [startQueue]. *)
Lemma queueTask_queued name action once e :
  has_queue name e = true ->
  queueTask name action once None e
  = (set_queues (enqueue name {| t_action := action; t_once := once |}) e, inr tt).
Proof.
  intros Hq. unfold queueTask, runLoop_add. rewrite (push_to_has_queue _ _ _ Hq).
  reflexivity.
Qed.

(** *** The notification *)








(** *** The pending commit task *)






(** *** A completed pass leaves nothing pending *)

Section Pass.

Variable w : World.











End Pass.

End Requeue.

(** ** Failure of a task *)

Section TaskFailure.

Import JS Env Environment.
Local Open Scope env_scope.

(** *** Listeners that stay *)

Lemma remove_first_keeps {H} `{EqDecision H} (l l0 : Emitter.Listener H) ls :
  l0 <> l -> In l0 ls -> In l0 (Emitter.remove_first l ls).
Proof.
  intros Hne. induction ls as [|l' ls IH]; [done|]. simpl.
  destruct (decide (l = l')) as [<-|Hl]; intros [->|Hin]; [done|done|by left|right; auto].
Qed.

Lemma remove_first_subset {H} `{EqDecision H} (l l0 : Emitter.Listener H) ls :
  In l0 (Emitter.remove_first l ls) -> In l0 ls.
Proof.
  induction ls as [|l' ls IH]; [done|]. simpl.
  destruct (decide (l = l')); [by right|]. intros [->|Hin]; [by left | right; auto].
Qed.

Lemma before_call_keeps {H} `{EqDecision H} (l l0 : Emitter.Listener H) ls :
  l0 <> l -> In l0 ls -> In l0 (Emitter.before_call l ls).
Proof.
  intros Hne Hin. unfold Emitter.before_call. destruct (Emitter.l_once l); [|done].
  by apply remove_first_keeps.
Qed.

Lemma before_call_keeps_lasting {H} `{EqDecision H} (l l0 : Emitter.Listener H) ls :
  Emitter.l_once l0 = false -> In l0 ls -> In l0 (Emitter.before_call l ls).
Proof.
  intros Honce Hin. unfold Emitter.before_call. destruct (Emitter.l_once l) eqn:Hl; [|done].
  apply remove_first_keeps; [|done]. intros ->. congruence.
Qed.

Lemma before_call_subset {H} `{EqDecision H} (l l0 : Emitter.Listener H) ls :
  In l0 (Emitter.before_call l ls) -> In l0 ls.
Proof.
  unfold Emitter.before_call. destruct (Emitter.l_once l); [|done].
  apply remove_first_subset.
Qed.

Lemma emit_keeps_lasting l0 event args e :
  Emitter.l_once l0 = false -> In l0 (listeners e) ->
  In l0 (listeners (M.exec (emit event args) e)).
Proof.
  intros Honce. apply (emit_preserves (fun e' => In l0 (listeners e'))); try done.
  intros l e0 _. by apply before_call_keeps_lasting.
Qed.

Lemma emit_listens_for_errors event args e :
  listens_for_errors e -> listens_for_errors (M.exec (emit event args) e).
Proof. intros [p Hp]. exists p. by apply emit_keeps_lasting. Qed.

(** [emit] throws only for an "error" nobody listens to. *)
Lemma emit_listened event args e :
  listens_for_errors e -> emit event args e = (M.exec (emit event args) e, inr tt).
Proof.
  intros [p Hp]. unfold M.exec, emit.
  destruct (Emitter.listeners event _) as [|l ls] eqn:Hls; [|done].
  destruct (String.eqb_spec event "error") as [->|Hne]; [|done].
  exfalso. assert (Hin : rejects_on_error p ∈ Emitter.listeners "error"
                           (listeners (log (EvEmit "error" args) e))).
  { apply list_elem_of_filter. split; [done|]. by apply list_elem_of_In. }
  rewrite Hls in Hin. by apply not_elem_of_nil in Hin.
Qed.

Lemma step_listens_for_errors e e' :
  step e e' -> listens_for_errors e -> listens_for_errors e'.
Proof.
  destruct 1 as [e e' _ Hls _ _ _ _ _|ev e _|event g event' e|event args e _].
  - unfold listens_for_errors. by rewrite Hls.
  - done.
  - intros [p Hp]. exists p. simpl. unfold Emitter.once. apply in_or_app. by left.
  - apply emit_listens_for_errors.
Qed.

(** What a task does leaves the listeners of the run loop alone, and a
    running scheduler running. *)
Lemma step_runLoop e e' :
  step e e' ->
  loop_listeners (runLoop e') = loop_listeners (runLoop e)
  /\ (state (runLoop e) <> Idle -> state (runLoop e') = state (runLoop e)).
Proof.
  destruct 1 as [e e' _ _ _ _ _ Hls Hst|ev e _|event g event' e|event args e _];
    try (split; done).
  - split; [done|]. intros Hidle. destruct Hst as [->|[Hst _]]; done.
  - rewrite emit_runLoop. by split.
Qed.

Lemma steps_wired e e' :
  rtc step e e' ->
  (wired e -> wired e')
  /\ (state (runLoop e) = Running -> state (runLoop e') = Running)
  /\ loop_listeners (runLoop e') = loop_listeners (runLoop e)
  /\ length (trace e) <= length (trace e').
Proof.
  induction 1 as [|x y z Hxy _ IH]; [split; [done|]; split; [done|]; split; [done | lia]|].
  destruct IH as (IHw & IHs & IHl & IHt).
  destruct (step_runLoop _ _ Hxy) as [Hl Hs].
  split; [|split; [|split]].
  - intros [Hf Herr]. apply IHw. split; [by rewrite Hl|].
    by apply (step_listens_for_errors x y).
  - intros Hrun. apply IHs. rewrite Hs; [done|]. by rewrite Hrun.
  - by rewrite IHl.
  - etrans; [|exact IHt].
    destruct Hxy as [e e' _ _ Htr _ _ _ _|ev e _|event g event' e|event args e _].
    + by rewrite Htr.
    + simpl. rewrite length_app. lia.
    + done.
    + destruct (emit_trace event args e) as (evs & -> & _). rewrite length_app. lia.
Qed.

(** *** Calling the listeners of the run loop *)

Variable w : World.

(** What the call of a listener of the run loop does when the environment
    listens for errors: it returns, adds its events to the trace, and
    leaves the scheduler as it is. *)
Lemma loop_call_forwards h args e :
  listens_for_errors e ->
  exists e' events,
    loop_call h args e = (e', inr tt)
    /\ runLoop e' = runLoop e
    /\ listens_for_errors e'
    /\ trace e' = trace e ++ events
    /\ (forall ev, In ev (forwarded_events h args) -> In ev events).
Proof.
  intros Herr. destruct h; simpl; unfold M.bind, M.modify.
  - rewrite (emit_listened _ _ _ Herr).
    destruct (emit_trace "error" args e) as (evs & Htr & _).
    eexists _, (EvEmit "error" args :: evs ++ [EvAdapterClose]). split; [done|].
    split; [apply emit_runLoop|]. split; [by apply emit_listens_for_errors|].
    split; [simpl; by rewrite Htr, <- app_assoc|].
    intros ev [<-|[<-|[]]]; [by left | right; apply in_or_app; right; by left].
  - rewrite (emit_listened _ _ _ Herr).
    destruct (emit_trace "paused" [] e) as (evs & Htr & _).
    eexists _, (EvEmit "paused" [] :: evs). split; [done|].
    split; [apply emit_runLoop|]. split; [by apply emit_listens_for_errors|].
    split; [done|]. intros ev [<-|[]]. by left.
  - rewrite (emit_listened _ _ _ Herr).
    destruct (emit_trace "end" [] e) as (evs & Htr & _).
    eexists _, (EvEmit "end" [] :: evs). split; [done|].
    split; [apply emit_runLoop|]. split; [by apply emit_listens_for_errors|].
    split; [done|]. intros ev [<-|[]]. by left.
Qed.

Lemma loop_call_all args ls e :
  listens_for_errors e ->
  exists e' events,
    M.for_each
      (fun l => M.modify (set_loop_listeners (Emitter.before_call l));;
                loop_call (Emitter.l_handler l) args) ls e = (e', inr tt)
    /\ queues (runLoop e') = queues (runLoop e)
    /\ state (runLoop e') = state (runLoop e)
    /\ (forall l0, In l0 (loop_listeners (runLoop e')) ->
          In l0 (loop_listeners (runLoop e)))
    /\ listens_for_errors e'
    /\ trace e' = trace e ++ events
    /\ (forall l ev, In l ls -> In ev (forwarded_events (Emitter.l_handler l) args) ->
          In ev events).
Proof.
  revert e. induction ls as [|l ls IH]; intros e Herr.
  - exists e, []. rewrite app_nil_r. by repeat split.
  - cbn [M.for_each]. unfold M.bind at 1. unfold M.bind at 1. unfold M.modify at 1.
    set (e0 := set_loop_listeners (Emitter.before_call l) e).
    destruct (loop_call_forwards (Emitter.l_handler l) args e0 Herr)
      as (e1 & evs1 & -> & Hloop1 & Herr1 & Htr1 & Hev1).
    destruct (IH e1 Herr1) as (e2 & evs2 & -> & Hq & Hs & Hls & Herr2 & Htr2 & Hev2).
    exists e2, (evs1 ++ evs2). split; [done|].
    split; [by rewrite Hq, Hloop1|]. split; [by rewrite Hs, Hloop1|]. split.
    { intros l0 Hl0. apply Hls in Hl0. rewrite Hloop1 in Hl0.
      by apply before_call_subset in Hl0. }
    split; [done|]. split; [by rewrite Htr2, Htr1, <- app_assoc|].
    intros l' ev [<-|Hl'] Hev; apply in_or_app; [left; by apply Hev1 | right; eauto].
Qed.

(** [runLoop.emit] when the environment listens for errors: every
    listener of the event is called. *)
Lemma runLoop_emit_forwards event args e l :
  listens_for_errors e ->
  In l (loop_listeners (runLoop e)) -> Emitter.l_event l = event ->
  exists e' events,
    runLoop_emit event args e = (e', inr tt)
    /\ queues (runLoop e') = queues (runLoop e)
    /\ state (runLoop e') = state (runLoop e)
    /\ listens_for_errors e'
    /\ trace e' = trace e ++ events
    /\ (forall ev, In ev (forwarded_events (Emitter.l_handler l) args) -> In ev events).
Proof.
  intros Herr Hl Hev. unfold runLoop_emit.
  assert (Hin : In l (Emitter.listeners event (loop_listeners (runLoop e)))).
  { apply list_elem_of_In, list_elem_of_filter. split; [done | by apply list_elem_of_In]. }
  destruct (Emitter.listeners event _) as [|l' ls] eqn:Hls; [done|].
  destruct (loop_call_all args (l' :: ls) e Herr)
    as (e' & evs & -> & Hq & Hs & _ & Herr' & Htr & Hevs).
  exists e', evs. repeat split; eauto.
Qed.

(** [runLoop.emit] of another event than "error" never throws. *)
Lemma runLoop_emit_returns event args e :
  listens_for_errors e ->
  exists e' events,
    runLoop_emit event args e
    = (e', if String.eqb event "error"
           then match Emitter.listeners event (loop_listeners (runLoop e)) with
                | [] => inl (thrown (arg0 args))
                | _ => inr tt
                end
           else inr tt)
    /\ queues (runLoop e') = queues (runLoop e)
    /\ state (runLoop e') = state (runLoop e)
    /\ trace e' = trace e ++ events.
Proof.
  intros Herr. unfold runLoop_emit.
  destruct (Emitter.listeners event _) as [|l' ls] eqn:Hls.
  - exists e, []. rewrite app_nil_r. by destruct (String.eqb event "error").
  - destruct (loop_call_all args (l' :: ls) e Herr)
      as (e' & evs & -> & Hq & Hs & _ & Herr' & Htr & Hevs).
    exists e', evs. by destruct (String.eqb event "error").
Qed.

Lemma loop_step_not_running e :
  state (runLoop e) <> Running -> loop_step w e = e.
Proof. unfold loop_step. by destruct (state (runLoop e)). Qed.

Lemma run_loop_not_running turns e :
  state (runLoop e) <> Running -> run_loop w turns e = e.
Proof.
  intros Hs. induction turns as [|turns IH]; [done|].
  simpl. by rewrite loop_step_not_running.
Qed.

(** C4.  With the listeners of [start] in place, when the task the running
    scheduler takes next throws [err]: the scheduler is paused; its
    sub-queues are as the task left them, the task itself gone from them;
    the environment has emitted "error" with [err] and the adapter has
    been closed; and further turns of the run loop change nothing. *)
Theorem failed_task_pauses_run_loop (e e1 : Env) (t : Task)
    (qs : list (string * list Task)) (err : Error) :
  wired e ->
  state (runLoop e) = Running ->
  next_task (queues (runLoop e)) = Some (t, qs) ->
  run_action w (t_action t) (set_queues (fun _ => qs) e) = (e1, inl err) ->
  let e' := loop_step w e in
  state (runLoop e') = Paused
  /\ queues (runLoop e') = queues (runLoop e1)
  /\ In (EvEmit "error" [VError err]) (events_since (length (trace e1)) e')
  /\ In EvAdapterClose (events_since (length (trace e1)) e')
  /\ forall turns, run_loop w turns e' = e'.
Proof.
  intros Hwired Hrun Hnext Haction e'.
  assert (Hsteps : rtc step (set_queues (fun _ => qs) e) e1).
  { pose proof (run_action_makes w (t_action t) (set_queues (fun _ => qs) e)) as H.
    by rewrite Haction in H. }
  destruct (steps_wired _ _ Hsteps) as (Hw1 & _ & _ & _).
  destruct (Hw1 Hwired) as [Hfwd Herr]. clear Hw1.
  destruct (runLoop_emit_forwards "error" [VError err] (set_state Paused e1)
              error_forwarder Herr Hfwd eq_refl)
    as (e3 & evs3 & Hemit & Hq3 & Hs3 & Herr3 & Htr3 & Hev3).
  destruct (runLoop_emit_returns "paused" [] e3 Herr3)
    as (e4 & evs4 & Hemit4 & Hq4 & Hs4 & Htr4).
  change (String.eqb "paused" "error") with false in Hemit4. cbv iota in Hemit4.
  assert (Hstep : e' = e4).
  { subst e'. unfold loop_step. rewrite Hrun, Hnext. unfold wrapped. rewrite Haction.
    unfold uncaught, stop, M.bind, M.modify. by rewrite Hemit, Hemit4. }
  rewrite Hstep. clear Hstep e'.
  assert (Hstate : state (runLoop e4) = Paused) by (by rewrite Hs4, Hs3).
  assert (Hsince : events_since (length (trace e1)) e4 = evs3 ++ evs4).
  { unfold events_since. rewrite Htr4, Htr3, <- app_assoc.
    change (trace (set_state Paused e1)) with (trace e1). by rewrite drop_app_length. }
  split; [done|]. split; [by rewrite Hq4, Hq3|]. rewrite Hsince.
  split; [apply in_or_app; left; apply Hev3; by left|].
  split; [apply in_or_app; left; apply Hev3; right; by left|].
  intros turns. apply run_loop_not_running. by rewrite Hstate.
Qed.

End TaskFailure.

(** ** The promise of [start] *)

Section StartPromise.

Import JS Env Environment.
Local Open Scope env_scope.

(** *** Reading outcomes off a trace *)

Lemma settles_not_pending ev outcome : settles ev = Some outcome -> outcome <> PPending.
Proof.
  destruct ev as [event args| | | | | | | |]; simpl; try discriminate.
  repeat (destruct (_ || _) || destruct (String.eqb _ _)); intros [= <-]; discriminate.
Qed.

Lemma outcome_of_app xs ys :
  outcome_of (xs ++ ys)
  = match outcome_of xs with
    | PPending => outcome_of ys
    | outcome => outcome
    end.
Proof.
  induction xs as [|ev xs IH]; [done|]. simpl.
  destruct (settles ev) as [outcome|] eqn:Hev; [|exact IH].
  apply settles_not_pending in Hev. by destruct outcome.
Qed.

Lemma outcome_of_generator_events evs :
  Forall generator_event evs -> outcome_of evs = PPending.
Proof. induction 1 as [|ev evs (g & event & ->) _ IH]; [done | exact IH]. Qed.

Lemma outcome_of_plain ev : plain_event ev = true -> settles ev = None.
Proof. by destruct ev. Qed.

(** The outcome after an [emit] and the events of the generators it
    reaches. *)
Lemma outcome_of_emit xs event args evs :
  Forall generator_event evs ->
  outcome_of (xs ++ EvEmit event args :: evs)
  = match outcome_of xs with
    | PPending => default PPending (settles (EvEmit event args))
    | outcome => outcome
    end.
Proof.
  intros Hevs. rewrite outcome_of_app. destruct (outcome_of xs); try done.
  cbn [outcome_of]. destruct (settles _); [done|]. by apply outcome_of_generator_events.
Qed.

(** *** The listeners of [start] and the events that settle *)

Lemma start_listener_settles p l args :
  In l (start_listeners p) ->
  targets p (Emitter.l_handler l) = true
  /\ settles (EvEmit (Emitter.l_event l) args)
     = Some (handler_outcome (Emitter.l_handler l) args).
Proof.
  unfold start_listeners. simpl.
  intros [<-|[<-|[<-|[<-|[]]]]]; simpl; by rewrite Nat.eqb_refl.
Qed.

Lemma settling_event_listener p event args outcome :
  settles (EvEmit event args) = Some outcome ->
  exists l, In l (start_listeners p) /\ Emitter.l_event l = event.
Proof.
  unfold start_listeners. simpl.
  destruct (String.eqb_spec event "error") as [->|_]; simpl.
  { intros _. eexists. split; [by left | done]. }
  destruct (String.eqb_spec event "generator:reject") as [->|_]; simpl.
  { intros _. eexists. split; [right; by left | done]. }
  destruct (String.eqb_spec event "generator:resolve") as [->|_]; simpl.
  { intros _. eexists. split; [right; right; by left | done]. }
  destruct (String.eqb_spec event "end") as [->|_]; simpl; [|done].
  intros _. eexists. split; [right; right; right; by left | done].
Qed.

(** *** What a handler does to a promise *)

Lemma settle_same p outcome e :
  promises (settle p outcome e) !! p
  = match promises e !! p with
    | Some PPending => Some outcome
    | other => other
    end.
Proof.
  unfold settle. cbn [promises set_promises].
  destruct (promises e !! p) as [[]|] eqn:Hp; try done.
  apply list_lookup_insert_eq. by apply lookup_lt_Some in Hp.
Qed.

Lemma settle_other p q outcome e :
  q <> p -> promises (settle q outcome e) !! p = promises e !! p.
Proof.
  intros Hne. unfold settle. cbn [promises set_promises].
  destruct (promises e !! q) as [[]|]; try done. by apply list_lookup_insert_ne.
Qed.

Lemma call_target p h args e :
  targets p h = true ->
  promises (call h args e) !! p
  = match promises e !! p with
    | Some PPending => Some (handler_outcome h args)
    | other => other
    end.
Proof.
  destruct h as [q|q|q|g event]; simpl; try discriminate;
    intros ->%Nat.eqb_eq; apply settle_same.
Qed.

Lemma call_other p h args e :
  targets p h = false -> promises (call h args e) !! p = promises e !! p.
Proof.
  destruct h as [q|q|q|g event]; simpl; try done;
    intros Hne%Nat.eqb_neq; by apply settle_other.
Qed.

(** The promise after the listeners [ls] have been called, when those
    that settle it agree on the outcome. *)
Lemma call_all_promise p args outcome ls e :
  (forall l, In l ls -> targets p (Emitter.l_handler l) = true ->
     handler_outcome (Emitter.l_handler l) args = outcome) ->
  promises (fold_left (fun e l => call (Emitter.l_handler l) args
                                    (set_listeners (Emitter.before_call l) e)) ls e) !! p
  = match promises e !! p with
    | Some PPending =>
        if existsb (fun l => targets p (Emitter.l_handler l)) ls
        then Some outcome else Some PPending
    | other => other
    end.
Proof.
  revert e. induction ls as [|l ls IH]; intros e Hls.
  - simpl. by destruct (promises e !! p) as [[]|].
  - cbn [fold_left existsb]. rewrite IH by (intros l0 Hl0; apply Hls; by right).
    destruct (targets p (Emitter.l_handler l)) eqn:Hl.
    + rewrite call_target by done. cbn [promises set_listeners].
      rewrite (Hls l) by (by left || done).
      destruct (promises e !! p) as [[]|] eqn:Hp; try done.
      assert (Hne : outcome <> PPending).
      { rewrite <- (Hls l) by (by left || done).
        destruct (Emitter.l_handler l); simpl; try discriminate. }
      by destruct outcome.
    + rewrite call_other by done. done.
Qed.

Lemma emit_promise p event args outcome e :
  (forall l, In l (listeners e) -> Emitter.l_event l = event ->
     targets p (Emitter.l_handler l) = true ->
     handler_outcome (Emitter.l_handler l) args = outcome) ->
  promises (M.exec (emit event args) e) !! p
  = match promises e !! p with
    | Some PPending =>
        if existsb (fun l => targets p (Emitter.l_handler l))
             (Emitter.listeners event (listeners e))
        then Some outcome else Some PPending
    | other => other
    end.
Proof.
  intros Hls. unfold M.exec, emit. cbn [listeners log set_trace].
  destruct (Emitter.listeners event (listeners e)) as [|l ls] eqn:Hsnap.
  - simpl. destruct (String.eqb event "error"); simpl;
      by destruct (promises e !! p) as [[]|].
  - cbn [fst]. rewrite (call_all_promise p args outcome); [done|].
    intros l0 Hl0. rewrite <- Hsnap in Hl0.
    apply list_elem_of_In, list_elem_of_filter in Hl0 as [Hev Hl0].
    apply Hls; [by apply list_elem_of_In | done].
Qed.

Lemma emit_listeners_subset event args e l0 :
  In l0 (listeners (M.exec (emit event args) e)) -> In l0 (listeners e).
Proof.
  apply (emit_preserves (fun e' => In l0 (listeners e') -> In l0 (listeners e)));
    try done.
  intros l e0 _ IH Hl0. apply IH. by apply before_call_subset in Hl0.
Qed.

Lemma emit_keeps_other_events event args e l0 :
  Emitter.l_event l0 <> event -> In l0 (listeners e) ->
  In l0 (listeners (M.exec (emit event args) e)).
Proof.
  intros Hne. apply (emit_preserves (fun e' => In l0 (listeners e'))); try done.
  intros l e0 Hl Hl0. apply before_call_keeps; [|done]. intros ->. done.
Qed.

(** *** The invariant *)

Lemma events_since_app n e evs e' :
  n <= length (trace e) -> trace e' = trace e ++ evs ->
  events_since n e' = events_since n e ++ evs.
Proof. intros Hn Htr. unfold events_since. rewrite Htr. by apply drop_app_le. Qed.

Lemma emit_follows_trace p n event args e :
  promise_follows_trace p n e -> promise_follows_trace p n (M.exec (emit event args) e).
Proof.
  intros (Hp & Hn & Hwf & Hreg).
  destruct (emit_trace event args e) as (evs & Htr & Hevs).
  pose proof (events_since_app n e _ _ Hn Htr) as Hsince.
  assert (Hout : outcome_of (events_since n (M.exec (emit event args) e))
                 = match outcome_of (events_since n e) with
                   | PPending => default PPending (settles (EvEmit event args))
                   | outcome => outcome
                   end).
  { rewrite Hsince. by apply outcome_of_emit. }
  split; [|split; [|split]].
  - rewrite Hout.
    rewrite (emit_promise p event args
               (default PPending (settles (EvEmit event args)))).
    + rewrite Hp. destruct (outcome_of (events_since n e)) eqn:Hold; try done.
      destruct (settles (EvEmit event args)) as [outcome|] eqn:Hset; simpl.
      * destruct (settling_event_listener p _ _ _ Hset) as (l & Hl & Hev).
        assert (Hex : existsb (fun l => targets p (Emitter.l_handler l))
                        (Emitter.listeners event (listeners e)) = true).
        { apply existsb_exists. exists l. split.
          - apply list_elem_of_In, list_elem_of_filter. split; [done|].
            apply list_elem_of_In. by apply Hreg.
          - by apply (start_listener_settles p l args). }
        by rewrite Hex.
      * by destruct (existsb _ _).
    + intros l Hl Hev Ht. specialize (Hwf l Hl Ht).
      destruct (start_listener_settles p l args Hwf) as [_ Hset].
      rewrite Hev in Hset. by rewrite Hset.
  - rewrite Htr, length_app. lia.
  - intros l Hl. apply Hwf. by apply emit_listeners_subset in Hl.
  - rewrite Hout. intros Hpending l Hl.
    destruct (outcome_of (events_since n e)) eqn:Hold; try done.
    apply emit_keeps_other_events; [|by apply Hreg].
    intros Hev. destruct (start_listener_settles p l args Hl) as [_ Hset].
    rewrite Hev in Hset. rewrite Hset in Hpending. simpl in Hpending.
    apply settles_not_pending in Hset. done.
Qed.

Lemma step_follows_trace p n e e' :
  step e e' -> promise_follows_trace p n e -> promise_follows_trace p n e'.
Proof.
  destruct 1 as [e e' Hps Hls Htr _ _ _ _|ev e Hev|event g event' e|event args e _].
  - unfold promise_follows_trace, events_since. by rewrite Hps, Hls, Htr.
  - intros (Hp & Hn & Hwf & Hreg).
    assert (Hsince : events_since n (log ev e) = events_since n e ++ [ev])
      by (by apply events_since_app).
    assert (Hout : outcome_of (events_since n (log ev e)) = outcome_of (events_since n e)).
    { rewrite Hsince, outcome_of_app. simpl. rewrite (outcome_of_plain _ Hev).
      by destruct (outcome_of _). }
    split; [by rewrite Hout|]. split; [simpl; rewrite length_app; lia|].
    split; [done|]. by rewrite Hout.
  - intros (Hp & Hn & Hwf & Hreg). split; [done|]. split; [done|]. split.
    + cbn [listeners set_listeners]. unfold Emitter.once.
      intros l [Hl|[<-|[]]]%in_app_or Ht; [by apply Hwf | done].
    + intros Hpending l Hl. cbn [listeners set_listeners]. unfold Emitter.once.
      apply in_or_app. left. by apply Hreg.
  - apply emit_follows_trace.
Qed.

Lemma turn_step_follows_trace p n e e' :
  turn_step e e' -> promise_follows_trace p n e -> promise_follows_trace p n e'.
Proof. destruct 1 as [e e' H|s e|l e]; [by apply step_follows_trace|done..]. Qed.

Variable w : World.

Lemma run_loop_follows_trace p n turns e :
  promise_follows_trace p n e -> promise_follows_trace p n (run_loop w turns e).
Proof.
  intros He. induction (run_loop_steps w turns e) as [|x y z Hxy _ IH]; [done|].
  apply IH. by apply (turn_step_follows_trace p n x y).
Qed.


(** *** What [start] sets up *)

Lemma has_queue_set_queues_enqueue name name' t e :
  has_queue name' (set_queues (enqueue name t) e) = has_queue name' e.
Proof.
  unfold has_queue, enqueue. cbn [runLoop queues set_queues set_runLoop].
  induction (queues (runLoop e)) as [|[n ts] qs IH]; [done|].
  simpl. destruct (String.eqb n name); simpl; [done|].
  destruct (push_to name t qs) as [qs'|]; simpl in *; by rewrite ?IH.
Qed.

(** [start] when the sub-queues of its two tasks exist. *)
Lemma start_prepares given e :
  has_queue "environment:conflicts" e = true -> has_queue "install" e = true ->
  start given e
  = (runLoop_start (M.exec (emit "run" []) (start_prepared given e)), length (promises e)).
Proof.
  intros Hc Hi. unfold start, start_executor.
  unfold M.bind at 1. unfold M.modify at 1.
  unfold M.bind at 1. unfold queueCommit. rewrite queueTask_queued by exact Hc.
  unfold M.bind at 1. unfold queuePackageManagerInstall.
  rewrite queueTask_queued by (by rewrite has_queue_set_queues_enqueue).
  unfold M.bind, M.modify. rewrite emit_returns by reflexivity. reflexivity.
Qed.

Lemma start_prepared_follows_trace given e :
  fresh_promise e ->
  promise_follows_trace (length (promises e)) (length (trace e)) (start_prepared given e).
Proof.
  intros Hfresh. unfold promise_follows_trace, events_since, start_prepared.
  cbn [promises trace listeners set_loop_listeners set_listeners set_queues set_runLoop
       set_conflicterOptions set_promises].
  rewrite drop_all. split; [|split; [done|split]].
  - by rewrite lookup_app_r, Nat.sub_diag.
  - unfold Emitter.on, Emitter.once, start_listeners.
    intros l Hl Ht. repeat (apply in_app_or in Hl as [Hl|[<-|[]]]);
      [|simpl; tauto..]. by rewrite (Hfresh l Hl) in Ht.
  - intros _ l. unfold Emitter.on, Emitter.once, start_listeners. simpl.
    intros [<-|[<-|[<-|[<-|[]]]]]; repeat (apply in_or_app; (by right; left) || left);
      by (apply in_or_app; right; left).
Qed.

Lemma runLoop_start_trace e : trace (runLoop_start e) = trace e.
Proof. unfold runLoop_start. by destruct (state (runLoop e)). Qed.

Lemma start_prepared_trace given e : trace (start_prepared given e) = trace e.
Proof. reflexivity. Qed.

Lemma runLoop_start_follows_trace p n e :
  promise_follows_trace p n e -> promise_follows_trace p n (runLoop_start e).
Proof. unfold runLoop_start. by destruct (state (runLoop e)). Qed.

(** *** The end of the run *)

Lemma steps_keep e e' :
  rtc step e e' ->
  (listens_for_errors e -> listens_for_errors e')
  /\ (state (runLoop e) = Running -> state (runLoop e') = Running)
  /\ loop_listeners (runLoop e') = loop_listeners (runLoop e)
  /\ exists events, trace e' = trace e ++ events.
Proof.
  induction 1 as [|x y z Hxy _ IH].
  { split; [done|]. split; [done|]. split; [done|]. exists []. by rewrite app_nil_r. }
  destruct IH as (IHe & IHs & IHl & evs & IHt).
  destruct (step_runLoop _ _ Hxy) as [Hl Hs].
  split; [|split; [|split]].
  - intros Herr. by apply IHe, (step_listens_for_errors x y).
  - intros Hrun. apply IHs. rewrite Hs; [done|]. by rewrite Hrun.
  - by rewrite IHl.
  - rewrite IHt.
    destruct Hxy as [e e' _ _ Htr _ _ _ _|ev e _|event g event' e|event args e _].
    + exists evs. by rewrite Htr.
    + exists (ev :: evs). simpl. by rewrite <- app_assoc.
    + by exists evs.
    + destruct (emit_trace event args e) as (evs' & -> & _).
      exists ((EvEmit event args :: evs') ++ evs). by rewrite <- app_assoc.
Qed.

Lemma in_events_since n e e' ev events :
  n <= length (trace e) -> trace e' = trace e ++ events ->
  In ev (events_since n e) \/ In ev events -> In ev (events_since n e').
Proof.
  intros Hn Htr Hev. rewrite (events_since_app n e events e' Hn Htr).
  apply in_or_app. tauto.
Qed.

(** [runLoop.emit] when the environment listens for errors, whatever the
    event and whether or not the run loop has listeners for it. *)
Lemma runLoop_emit_keeps event args e :
  listens_for_errors e ->
  exists events,
    let e' := fst (runLoop_emit event args e) in
    state (runLoop e') = state (runLoop e)
    /\ listens_for_errors e'
    /\ trace e' = trace e ++ events.
Proof.
  intros Herr. unfold runLoop_emit.
  destruct (Emitter.listeners event _) as [|l' ls] eqn:Hls.
  - exists []. rewrite app_nil_r. by destruct (String.eqb event "error").
  - destruct (loop_call_all args (l' :: ls) e Herr)
      as (e' & evs & -> & Hq & Hs & _ & Herr' & Htr & Hevs).
    by exists evs.
Qed.

Lemma uncaught_stop_keeps err e :
  listens_for_errors e ->
  exists e' events,
    uncaught (stop err) e = e'
    /\ state (runLoop e') = Paused /\ listens_for_errors e'
    /\ trace e' = trace e ++ events.
Proof.
  intros Herr. unfold uncaught, stop, M.bind, M.modify.
  destruct (runLoop_emit_keeps "error" [VError err] (set_state Paused e) Herr)
    as (evs1 & Hs1 & Herr1 & Htr1).
  destruct (runLoop_emit "error" [VError err] (set_state Paused e))
    as [e1 [err1|[]]]; simpl in Hs1, Herr1, Htr1.
  - eexists _, (evs1 ++ [EvUncaught err1]). split; [reflexivity|].
    cbn [trace log set_trace state runLoop]. rewrite Htr1, <- app_assoc. by split.
  - destruct (runLoop_emit_keeps "paused" [] e1 Herr1) as (evs2 & Hs2 & Herr2 & Htr2).
    destruct (runLoop_emit "paused" [] e1) as [e2 [err2|[]]]; simpl in Hs2, Herr2, Htr2.
    + eexists _, (evs1 ++ evs2 ++ [EvUncaught err2]). split; [reflexivity|].
      cbn [trace log set_trace state runLoop].
      rewrite Htr2, Htr1, <- !app_assoc. split; [by rewrite Hs2, Hs1 | by split].
    + eexists _, (evs1 ++ evs2). split; [reflexivity|]. rewrite Htr2, Htr1, <- !app_assoc.
      split; [by rewrite Hs2, Hs1 | by split].
Qed.

Lemma loop_step_end_follows n e :
  end_follows n e -> end_follows n (loop_step w e).
Proof.
  intros (Herr & Hn & Hstate). unfold loop_step.
  destruct (state (runLoop e)) eqn:Hs; try (by unfold end_follows; rewrite Hs).
  destruct (next_task _) as [[t qs]|].
  - unfold wrapped.
    pose proof (run_action_makes w (t_action t) (set_queues (fun _ => qs) e)) as Hsteps.
    destruct (run_action w (t_action t) _) as [e1 [err|[]]]; simpl in Hsteps;
      destruct (steps_keep _ _ Hsteps) as (He1 & Hs1 & Hl1 & evs1 & Htr1).
    + destruct (uncaught_stop_keeps err e1 (He1 Herr)) as (e2 & evs2 & -> & Hs2 & Herr2 & Htr2).
      unfold end_follows. rewrite Hs2. split; [done|]. split; [|done].
      rewrite Htr2, Htr1, !length_app. simpl. lia.
    + unfold end_follows. rewrite Hs1 by done. split; [by apply He1|].
      split; [rewrite Htr1, length_app; simpl; lia|]. by rewrite Hl1.
  - destruct (runLoop_emit_forwards "end" [] (set_state Ended e) end_forwarder
                Herr Hstate eq_refl)
      as (e1 & evs & Hemit & _ & Hs1 & Herr1 & Htr1 & Hev).
    unfold uncaught. rewrite Hemit. unfold end_follows. rewrite Hs1. cbn [state runLoop
      set_state set_runLoop]. split; [done|].
    split; [rewrite Htr1, length_app; simpl; lia|].
    apply (in_events_since n (set_state Ended e) e1 _ evs); [done | done |].
    right. apply Hev. by left.
Qed.

Lemma run_loop_end_follows n turns e :
  end_follows n e -> end_follows n (run_loop w turns e).
Proof.
  revert e. induction turns as [|turns IH]; intros e He; [done|].
  simpl. by apply IH, loop_step_end_follows.
Qed.

Lemma start_end_follows given e :
  state (runLoop e) <> Ended ->
  end_follows (length (trace e))
    (runLoop_start (M.exec (emit "run" []) (start_prepared given e))).
Proof.
  intros Hs. set (e0 := start_prepared given e).
  assert (Herr : listens_for_errors (M.exec (emit "run" []) e0)).
  { apply emit_listens_for_errors. exists (length (promises e)).
    subst e0. unfold start_prepared, Emitter.on, Emitter.once. simpl.
    apply in_or_app. left. apply in_or_app. left. apply in_or_app. left.
    apply in_or_app. right. by left. }
  assert (Hloop : runLoop (M.exec (emit "run" []) e0) = runLoop e0) by apply emit_runLoop.
  assert (Htr : length (trace e) <= length (trace (M.exec (emit "run" []) e0))).
  { destruct (emit_trace "run" [] e0) as (evs & -> & _). rewrite length_app.
    subst e0. unfold start_prepared. simpl. lia. }
  assert (Hin : In end_forwarder (loop_listeners (runLoop e0))).
  { subst e0. unfold start_prepared, Emitter.on, Emitter.once. simpl.
    apply in_or_app. right. by left. }
  assert (Hstate : state (runLoop e0) = state (runLoop e)) by done.
  unfold end_follows, runLoop_start. rewrite Hloop, Hstate.
  destruct (state (runLoop e)) eqn:Hse; try done;
    (split; [done|]; split; [done|]);
    cbn [state runLoop set_state set_runLoop loop_listeners]; by rewrite ?Hloop, ?Hstate, ?Hse.
Qed.

(** *** The run loop stays wired

    [start] leaves the two listeners that forward a failure, and no turn of
    the run loop removes them: a task that fails during the run finds them
    in place. *)

Lemma start_wires given e :
  has_queue "environment:conflicts" e = true -> has_queue "install" e = true ->
  wired (fst (start given e)).
Proof.
  intros Hc Hi. rewrite (start_prepares given e Hc Hi). cbn [fst].
  set (e0 := start_prepared given e).
  assert (Hloop : runLoop (M.exec (emit "run" []) e0) = runLoop e0) by apply emit_runLoop.
  assert (Hin : In error_forwarder (loop_listeners (runLoop e0))).
  { subst e0. unfold start_prepared, Emitter.on, Emitter.once. simpl.
    apply in_or_app. left. apply in_or_app. left. apply in_or_app. right. by left. }
  assert (Herr : listens_for_errors (M.exec (emit "run" []) e0)).
  { apply emit_listens_for_errors. exists (length (promises e)).
    subst e0. unfold start_prepared, Emitter.on, Emitter.once. simpl.
    apply in_or_app. left. apply in_or_app. left. apply in_or_app. left.
    apply in_or_app. right. by left. }
  unfold wired, runLoop_start. rewrite Hloop.
  destruct (state (runLoop e0)); (split; [|exact Herr]);
    cbn [runLoop loop_listeners set_state set_runLoop]; by rewrite ?Hloop.
Qed.

Lemma turn_step_wired e e' : turn_step e e' -> wired e -> wired e'.
Proof.
  destruct 1 as [e e' H|s e|l e]; intros [Hfwd Herr].
  - destruct (step_runLoop _ _ H) as [Hl _]. split; [by rewrite Hl|].
    by apply (step_listens_for_errors e e').
  - by split.
  - split; [|exact Herr]. cbn [runLoop loop_listeners set_loop_listeners set_runLoop].
    by apply before_call_keeps_lasting.
Qed.

Lemma run_loop_wired turns e : wired e -> wired (run_loop w turns e).
Proof.
  intros He. induction (run_loop_steps w turns e) as [|x y z Hxy _ IH]; [done|].
  apply IH. by apply (turn_step_wired x y).
Qed.

(** C1, as amended.  For a [start] whose two tasks find their sub-queues,
    on an environment where no listener settles the new promise: the
    promise is pending when [start] returns, and after any number of turns
    of the run loop it is what the first of these events emitted on the
    environment since the call makes it: "end" resolves it with
    [undefined], "generator:resolve" resolves it with the value emitted,
    "error" and "generator:reject" reject it with the value emitted.  A
    scheduler that was not ended and has reached its ended state has
    emitted "end"; so the promise is then resolved with [undefined] unless
    an event before settled it otherwise, and it is rejected with the first
    error emitted when no event before settled it. *)
Theorem start_promise_settles_on_first_event (given : ConflicterOptions) (e : Env)
    (turns : nat) :
  has_queue "environment:conflicts" e = true ->
  has_queue "install" e = true ->
  fresh_promise e ->
  let p := snd (start given e) in
  let e1 := fst (start given e) in
  let e2 := run_loop w turns e1 in
  let events := events_since (length (trace e)) e2 in
  promises e1 !! p = Some PPending
  /\ promises e2 !! p = Some (outcome_of events)
  /\ (state (runLoop e) <> Ended -> state (runLoop e2) = Ended ->
      In (EvEmit "end" []) events
      /\ ((forall ev outcome, In ev events -> settles ev = Some outcome ->
             outcome = PResolved VUndefined) ->
          promises e2 !! p = Some (PResolved VUndefined)))
  /\ (forall before v after,
        events = before ++ EvEmit "error" [v] :: after ->
        outcome_of before = PPending ->
        promises e2 !! p = Some (PRejected v)).
Proof.
  intros Hc Hi Hfresh. rewrite (start_prepares given e Hc Hi). cbn [fst snd].
  set (p := length (promises e)). set (n := length (trace e)).
  set (e1 := runLoop_start _).
  assert (H1 : promise_follows_trace p n e1).
  { apply runLoop_start_follows_trace, emit_follows_trace.
    by apply start_prepared_follows_trace. }
  assert (H2 : promise_follows_trace p n (run_loop w turns e1))
    by (by apply run_loop_follows_trace).
  destruct H2 as (Hp2 & _). split; [|split; [exact Hp2|split]].
  - destruct H1 as (Hp1 & _). rewrite Hp1. f_equal.
    subst e1. unfold events_since. rewrite runLoop_start_trace.
    destruct (emit_trace "run" [] (start_prepared given e)) as (evs & -> & Hevs).
    rewrite start_prepared_trace. subst n. rewrite drop_app_length. simpl.
    by apply outcome_of_generator_events.
  - intros Hs Hended.
    pose proof (run_loop_end_follows (length (trace e)) turns e1
                  (start_end_follows given e Hs)) as (_ & _ & Hend).
    rewrite Hended in Hend. split; [exact Hend|]. intros Hall. rewrite Hp2. f_equal.
    fold n in Hend. revert Hend Hall. generalize (events_since n (run_loop w turns e1)).
    intros evs. induction evs as [|ev evs IH]; [done|]. simpl.
    intros Hin Hall. destruct (settles ev) as [outcome|] eqn:Hev.
    + apply (Hall ev); [by left | done].
    + destruct Hin as [->|Hin]; [done|]. apply IH; [done|].
      intros ev' outcome' Hev'. apply Hall. by right.
  - intros before v after Hevents Hbefore. rewrite Hp2, Hevents, outcome_of_app, Hbefore.
    reflexivity.
Qed.

End StartPromise.

(** ** Closed instances *)

Import JS Env Environment.

Lemma start_promise_settles_on_first_event_witness :
  promises (run_loop Example.world 3 (fst (start no_options Example.fresh))) !! 0
  = Some (PResolved VUndefined).
Proof.
  assert (Hfresh : fresh_promise Example.fresh) by (intros l []).
  assert (Hc : has_queue "environment:conflicts" Example.fresh = true)
    by (vm_compute; reflexivity).
  assert (Hi : has_queue "install" Example.fresh = true) by (vm_compute; reflexivity).
  pose proof (start_promise_settles_on_first_event Example.world no_options
                Example.fresh 3 Hc Hi Hfresh) as (_ & H & _).
  vm_compute in H. vm_compute. exact H.
Defined.

(** C1, as stated, fails: the scheduler reaches its ended state with the
    promise of the run resolved with [undefined], not with the result of
    the root generator. *)
Lemma run_promise_resolves_without_result :
  let e := M.exec (runGenerator Example.generator) Example.fresh in
  let e' := run_loop Example.world 6 e in
  state (runLoop e') = Ended
  /\ rootGenerator e' = Some Example.generator
  /\ promises e' !! 0 = Some (PResolved VUndefined)
  /\ PResolved VUndefined <> PResolved (g_result Example.generator).
Proof. vm_compute. repeat split; discriminate. Qed.

Lemma queueGenerator_composes_once_witness :
  let e := perform_all Example.world [CallRunGenerator Example.generator; Turn]
             Example.fresh in
  queueGenerator Example.same_generator true e = (e, inr Example.generator)
  /\ count_events (is_compose "foo:app") (trace e) = 1
  /\ count_events (is_compose_of "foo:app") (trace e) = 1.
Proof.
  pose proof (queueGenerator_composes_once Example.world Example.queues no_options false
                [CallRunGenerator Example.generator; Turn]
                Example.same_generator true) as (Honce & Hstored & _).
  split; [apply Hstored; vm_compute; reflexivity|].
  destruct (Honce "foo:app") as [H1 H2]. split; [exact H1 | exact H2].
Defined.


Lemma failed_task_pauses_run_loop_witness :
  let e' := loop_step Example.world Example.failing in
  state (runLoop e') = Paused
  /\ In (EvEmit "error" [VError (PlainError "boom")]) (trace e')
  /\ In EvAdapterClose (trace e')
  /\ promises e' !! 0 = Some (PRejected (VError (PlainError "boom"))).
Proof.
  assert (Hwired : wired Example.failing).
  { split; [vm_compute; tauto | exists 0; vm_compute; tauto]. }
  set (t := {| t_action := AScript [OpThrow (PlainError "boom")]; t_once := None |}).
  set (qs := snd (default (t, []) (next_task (queues (runLoop Example.failing))))).
  assert (Hrunning : state (runLoop Example.failing) = Running)
    by (vm_compute; reflexivity).
  assert (Hnext : next_task (queues (runLoop Example.failing)) = Some (t, qs))
    by (vm_compute; reflexivity).
  assert (Hthrows : run_action Example.world (t_action t)
                      (set_queues (fun _ => qs) Example.failing)
                    = (set_queues (fun _ => qs) Example.failing, inl (PlainError "boom")))
    by (vm_compute; reflexivity).
  pose proof (failed_task_pauses_run_loop Example.world Example.failing _ t qs
                (PlainError "boom") Hwired Hrunning Hnext Hthrows)
    as (Hpaused & _ & _ & _ & _).
  split; [exact Hpaused|]. vm_compute. tauto.
Defined.


Lemma rootGenerator_is_first_run_witness :
  rootGenerator
    (perform_all Example.world
       [CallQueueGenerator Example.other_generator true;
        CallRunGenerator Example.other_generator; Turn; Turn]
       (M.exec (runGenerator Example.generator) Example.fresh))
  = Some Example.generator.
Proof.
  assert (Hroot : rootGenerator Example.fresh = None) by (vm_compute; reflexivity).
  assert (Hrun : runGenerator Example.generator Example.fresh
                 = (M.exec (runGenerator Example.generator) Example.fresh, inr 0))
    by (vm_compute; reflexivity).
  exact (rootGenerator_is_first_run Example.world Example.generator Example.fresh _ 0
           [CallQueueGenerator Example.other_generator true;
            CallRunGenerator Example.other_generator; Turn; Turn]
           Hroot Hrun).
Defined.

(** C6, the failing input: in experimental mode, running a generator that
    cannot be resolved goes to the not-found error without any attempt to
    install it. *)
Example run_experimental_unresolved :
  run Example.world ["missing"] no_options false Example.experimental_env
  = (Example.experimental_env, inl (not_found "missing"))
  /\ experimental Example.experimental_env = true
  /\ count_events is_prepareEnvironment
       (trace (M.exec (run Example.world ["missing"] no_options false)
                 Example.experimental_env)) = 0.
Proof. vm_compute. repeat split. Qed.

(** The end-to-end example of the specification: [run "foo"] resolves the
    alias to [foo:app], composes the generator, the write of the writing
    phase and the late write of the end phase are both committed, and the
    run resolves with nothing pending. *)
Example end_to_end :
  let registered :=
    set_store (fun s => <["foo:app" := Example.generator]> s) Example.fresh in
  let e := run_loop Example.world 8
             (M.exec (run Example.world ["foo"] no_options false) registered) in
  state (runLoop e) = Ended
  /\ promises e !! 0 = Some (PResolved VUndefined)
  /\ disk e !! "/out/file.txt" = Some "x"
  /\ disk e !! "/out/late.txt" = Some "y"
  /\ List.filter isFilePending (files (sharedFs e)) = []
  /\ count_events (is_compose "foo:app") (trace e) = 1.
Proof. vm_compute. repeat split. Qed.
